(** * Deadlock detection tool: validator, detector and resolution advisor

    A shallow embedding of [validate_inputs], [detect_deadlock] and
    [suggest_resolution] of [app.py], and the properties of the
    specification proved about them.

    Python integers are [Z]; lists are [list]; an index that comes out of
    [range] is a [nat]; an index supplied by a caller is a [Z] and follows
    Python's rule for negative subscripts.  A subscript out of range raises
    [IndexError], [min] of an empty sequence raises [ValueError]: both are
    results of the [outcome] type.  The [while True] loop of the detector is
    run on a fuel counter, one unit for each pass; [OutOfFuel] is the result
    of a run that was cut short, and the termination theorem shows that it
    never comes out once the fuel exceeds the number of processes.

    The detector is embedded twice.  The first embedding works on lists as
    values and carries the algorithmic properties.  The second, in
    [Module Store], works on a store of list objects, with the arguments as
    addresses, and carries the property that the caller's objects are not
    changed; [store_detect_deadlock_refines] shows that both return the
    same result.

    [Module Web] embeds the request handler [index] with [save_to_db]: the
    form is a finite map, [int] on a string is a parameter, and the effect
    on the database is the list of rows inserted. *)

From stdpp Require Import base list relations strings pretty sorting gmap.
From Stdlib Require Import ZArith Lia Sorted.

Open Scope Z_scope.

(** ** Results of a call *)

Inductive exn : Type :=
  | IndexError
  | ValueError
  | TypeError.

Inductive outcome (A : Type) : Type :=
  | Return (a : A)
  | Raise (e : exn)
  | OutOfFuel.

Arguments Return {A} a.
Arguments Raise {A} e.
Arguments OutOfFuel {A}.

#[export] Instance outcome_ret : MRet outcome := @Return.

#[export] Instance outcome_bind : MBind outcome := λ A B f x,
  match x with
  | Return a => f a
  | Raise e => Raise e
  | OutOfFuel => OutOfFuel
  end.

(** ** Python list primitives *)

(** [len(l)]. *)
Definition len {A} (l : list A) : Z := Z.of_nat (length l).

(** [range(n)]: empty when [n <= 0]. *)
Definition range (n : Z) : list nat := seq 0 (Z.to_nat n).

(** [l[i]] for an index produced by [range]. *)
Definition getitem {A} (l : list A) (i : nat) : outcome A :=
  match l !! i with
  | Some x => Return x
  | None => Raise IndexError
  end.

(** [l[i]] for an arbitrary integer: a negative index counts from the end. *)
Definition getitem_int {A} (l : list A) (i : Z) : outcome A :=
  if 0 <=? i then getitem l (Z.to_nat i)
  else if 0 <=? i + len l then getitem l (Z.to_nat (i + len l))
  else Raise IndexError.

(** [l[i] = x] on a list: raises out of range, never extends. *)
Definition setitem {A} (l : list A) (i : nat) (x : A) : outcome (list A) :=
  if decide (i < length l)%nat then Return (<[i:=x]> l) else Raise IndexError.

(** [sum(l)]: left fold from 0. *)
Definition py_sum (l : list Z) : Z := foldl Z.add 0 l.

(** [str(l)] for a list of indices: [[0, 1, 2]]. *)
Definition str_list (l : list nat) : string :=
  "[" +:+ String.concat ", " (pretty <$> l) +:+ "]".

(** ** [validate_inputs] *)

Definition msg_allocation_shape : string := "Allocation matrix must be n x m.".
Definition msg_request_shape : string := "Request matrix must be n x m.".
Definition msg_available_len : string := "Available vector must have m elements.".
Definition msg_values_negative : string := "Values must be non-negative.".
Definition msg_available_negative : string := "Available values must be non-negative.".

(** The inner [for j in range(m)] of lines 53-56; [Some r] is an early
    [return r]. *)
Fixpoint check_row (allocation request : list (list Z)) (i : nat) (js : list nat)
    : outcome (option (bool * string)) :=
  match js with
  | [] => Return None
  | j :: js' =>
      arow ← getitem allocation i;
      a ← getitem arow j;
      if a <? 0 then Return (Some (false, msg_values_negative))
      else
        rrow ← getitem request i;
        r ← getitem rrow j;
        if r <? 0 then Return (Some (false, msg_values_negative))
        else check_row allocation request i js'
  end.

(** The outer [for i in range(n)]. *)
Fixpoint check_rows (allocation request : list (list Z)) (ids js : list nat)
    : outcome (option (bool * string)) :=
  match ids with
  | [] => Return None
  | i :: ids' =>
      r ← check_row allocation request i js;
      match r with
      | Some res => Return (Some res)
      | None => check_rows allocation request ids' js
      end
  end.

(** [for val in available] of lines 57-59. *)
Fixpoint check_available (available : list Z) : option (bool * string) :=
  match available with
  | [] => None
  | val :: rest =>
      if val <? 0 then Some (false, msg_available_negative)
      else check_available rest
  end.

Definition validate_inputs (n m : Z) (allocation request : list (list Z))
    (available : list Z) : outcome (bool * string) :=
  if negb (len allocation =? n) || existsb (λ row, negb (len row =? m)) allocation
  then Return (false, msg_allocation_shape)
  else if negb (len request =? n) || existsb (λ row, negb (len row =? m)) request
  then Return (false, msg_request_shape)
  else if negb (len available =? m)
  then Return (false, msg_available_len)
  else
    r ← check_rows allocation request (range n) (range m);
    match r with
    | Some res => Return res
    | None =>
        match check_available available with
        | Some res => Return res
        | None => Return (true, "")
        end
    end.

(** ** [detect_deadlock] *)

(** [all(request[i][j] <= work[j] for j in range(m))]: stops at the first
    [False]. *)
Fixpoint all_request_le (request : list (list Z)) (work : list Z) (i : nat)
    (js : list nat) : outcome bool :=
  match js with
  | [] => Return true
  | j :: js' =>
      rrow ← getitem request i;
      r ← getitem rrow j;
      w ← getitem work j;
      if r <=? w then all_request_le request work i js' else Return false
  end.

(** [[work[j] + allocation[i][j] for j in range(m)]]. *)
Fixpoint release (allocation : list (list Z)) (work : list Z) (i : nat)
    (js : list nat) : outcome (list Z) :=
  match js with
  | [] => Return []
  | j :: js' =>
      w ← getitem work j;
      arow ← getitem allocation i;
      a ← getitem arow j;
      rest ← release allocation work i js';
      Return (w + a :: rest)
  end.

(** The variables the loop updates. *)
Record vars : Type := Vars {
  work : list Z;
  finish : list bool;
  found : bool
}.

(** The body of [for i in range(n)], lines 81-84. *)
Definition visit (m : Z) (allocation request : list (list Z)) (i : nat)
    (s : vars) : outcome vars :=
  f ← getitem (finish s) i;
  if negb f then
    ok ← all_request_le request (work s) i (range m);
    if (ok : bool) then
      work' ← release allocation (work s) i (range m);
      finish' ← setitem (finish s) i true;
      Return (Vars work' finish' true)
    else Return s
  else Return s.

(** One [for] loop over the processes in the order [order]; the source
    visits them in the order [range(n)]. *)
Fixpoint for_each (m : Z) (allocation request : list (list Z))
    (order : list nat) (s : vars) : outcome vars :=
  match order with
  | [] => Return s
  | i :: rest =>
      s' ← visit m allocation request i s;
      for_each m allocation request rest s'
  end.

(** [while True: found = False; for ...; if not found: break]. *)
Fixpoint while_true (fuel : nat) (m : Z) (allocation request : list (list Z))
    (order : list nat) (work0 : list Z) (finish0 : list bool)
    : outcome (list Z * list bool) :=
  match fuel with
  | O => OutOfFuel
  | S fuel' =>
      s ← for_each m allocation request order (Vars work0 finish0 false);
      if found s
      then while_true fuel' m allocation request order (work s) (finish s)
      else Return (work s, finish s)
  end.

(** [[i for i in range(n) if not finish[i]]]. *)
Fixpoint unfinished (finish0 : list bool) (ids : list nat) : outcome (list nat) :=
  match ids with
  | [] => Return []
  | i :: ids' =>
      f ← getitem finish0 i;
      rest ← unfinished finish0 ids';
      Return (if (f : bool) then rest else i :: rest)
  end.

Definition msg_no_deadlock : string := "No deadlock detected.".

Definition msg_deadlock (deadlocked : list nat) : string :=
  "Deadlock detected in processes: " +:+ str_list deadlocked +:+ ".".

(** Lines 87-90. *)
Definition report (deadlocked : list nat) : bool * list nat * string :=
  match deadlocked with
  | [] => (false, [], msg_no_deadlock)
  | _ :: _ => (true, deadlocked, msg_deadlock deadlocked)
  end.

(** The detector with the visiting order of a pass as a parameter.
    [[False] * n] is the list of [Z.to_nat n] flags.  This is what Python
    builds for every [n] that is at most the length of a list, as [n] is
    on every state that the validator accepts; for an [n] that does not
    fit the index type CPython raises [OverflowError] at that line, a
    case that is outside this embedding. *)
Definition detect_deadlock_in (order : list nat) (fuel : nat) (n m : Z)
    (allocation request : list (list Z)) (available : list Z)
    : outcome (bool * list nat * string) :=
  '(_, finish1) ← while_true fuel m allocation request order
                    available (replicate (Z.to_nat n) false);
  deadlocked ← unfinished finish1 (range n);
  Return (report deadlocked).

(** [detect_deadlock]: every pass visits [range(n)]. *)
Definition detect_deadlock (fuel : nat) (n m : Z)
    (allocation request : list (list Z)) (available : list Z)
    : outcome (bool * list nat * string) :=
  detect_deadlock_in (range n) fuel n m allocation request available.

(** ** [suggest_resolution] *)

Definition strategy_1 : string :=
  "Strategy 1: Terminate one or more deadlocked processes to break the circular wait.".
Definition strategy_2 : string :=
  "Strategy 2: Preempt resources from a process and rollback.".
Definition recommendation (victim : Z) : string :=
  "Recommendation: Terminate Process P" +:+ pretty victim
    +:+ " (holds fewest resources).".
Definition msg_no_action : string := "No action required.".

(** [lambda i: sum(allocation[i])]. *)
Definition row_sum (allocation : list (list Z)) (i : Z) : outcome Z :=
  row ← getitem_int allocation i;
  Return (py_sum row).

(** The scan of [min(iterable, key=f)] after its first element: the best
    element so far is replaced only by one with a strictly smaller key. *)
Fixpoint min_scan (f : Z → outcome Z) (best best_key : Z) (rest : list Z)
    : outcome Z :=
  match rest with
  | [] => Return best
  | x :: rest' =>
      k ← f x;
      if k <? best_key then min_scan f x k rest'
      else min_scan f best best_key rest'
  end.

(** [min(l, key=f)]: [ValueError] on an empty list. *)
Definition py_min (f : Z → outcome Z) (l : list Z) : outcome Z :=
  match l with
  | [] => Raise ValueError
  | x :: rest => k ← f x; min_scan f x k rest
  end.

(** [try: body except ValueError: handler]. *)
Definition except_ValueError {A} (body handler : outcome A) : outcome A :=
  match body with
  | Raise ValueError => handler
  | _ => body
  end.

Definition suggest_resolution (deadlocked : list Z)
    (allocation request : list (list Z)) : outcome string :=
  match deadlocked with
  | [] => Return msg_no_action
  | _ :: _ =>
      let suggestions := [strategy_1; strategy_2] in
      suggestions' ←
        except_ValueError
          (victim_candidate ← py_min (row_sum allocation) deadlocked;
           Return (suggestions ++ [recommendation victim_candidate]))
          (Return suggestions);
      Return (String.concat "<br>" suggestions')
  end.

(** ** [detect_deadlock] on a store of list objects

    The same function with Python's shared, mutable lists written out.  The
    store holds the contents of every list object by address; an argument is
    the address of the caller's object; [available.copy()], a list
    comprehension and [[False] * n] make a new object; [finish[i] = True]
    updates an object in place; [work = ...] rebinds the local variable. *)
Module Store.

Abbreviation loc := nat.

(** A list object: a list of integers, of booleans, or of row objects. *)
Inductive obj : Type :=
  | Ints (zs : list Z)
  | Bools (bs : list bool)
  | Rows (ls : list loc).

(** A new object takes the next address. *)
Abbreviation store := (list obj).

(** A computation on the store; the store is there after an exception
    too. *)
Definition prog (A : Type) : Type := store → outcome A * store.

#[global] Instance prog_ret : MRet prog := λ A a h, (Return a, h).

#[global] Instance prog_bind : MBind prog := λ A B f p h,
  match p h with
  | (Return a, h') => f a h'
  | (Raise e, h') => (Raise e, h')
  | (OutOfFuel, h') => (OutOfFuel, h')
  end.

(** A step that does not touch the store. *)
Definition lift {A} (o : outcome A) : prog A := λ h, (o, h).

(** The object at [l], read as a list of integers. *)
Definition ints_at (l : loc) : prog (list Z) := λ h,
  match h !! l with
  | Some (Ints zs) => (Return zs, h)
  | _ => (Raise TypeError, h)
  end.

Definition bools_at (l : loc) : prog (list bool) := λ h,
  match h !! l with
  | Some (Bools bs) => (Return bs, h)
  | _ => (Raise TypeError, h)
  end.

Definition rows_at (l : loc) : prog (list loc) := λ h,
  match h !! l with
  | Some (Rows ls) => (Return ls, h)
  | _ => (Raise TypeError, h)
  end.

(** A new object. *)
Definition alloc (o : obj) : prog loc := λ h, (Return (length h), h ++ [o]).

(** [l[i] = b], in place. *)
Definition set_bool (l : loc) (i : nat) (b : bool) : prog () := λ h,
  match h !! l with
  | Some (Bools bs) =>
      if decide (i < length bs)%nat
      then (Return (), <[l := Bools (<[i:=b]> bs)]> h)
      else (Raise IndexError, h)
  | _ => (Raise TypeError, h)
  end.

(** [mat[i][j]]. *)
Definition entry (mat : loc) (i j : nat) : prog Z :=
  ls ← rows_at mat;
  l ← lift (getitem ls i);
  zs ← ints_at l;
  lift (getitem zs j).

(** [vec[j]]. *)
Definition item (vec : loc) (j : nat) : prog Z :=
  zs ← ints_at vec;
  lift (getitem zs j).

Fixpoint all_request_le (request work : loc) (i : nat) (js : list nat)
    : prog bool :=
  match js with
  | [] => mret true
  | j :: js' =>
      r ← entry request i j;
      w ← item work j;
      if r <=? w then all_request_le request work i js' else mret false
  end.

Fixpoint release (allocation work : loc) (i : nat) (js : list nat)
    : prog (list Z) :=
  match js with
  | [] => mret []
  | j :: js' =>
      w ← item work j;
      a ← entry allocation i j;
      rest ← release allocation work i js';
      mret (w + a :: rest)
  end.

(** The body of the [for] loop; [finish] stays bound to one object, [work]
    is rebound to a new one. *)
Definition visit (m : Z) (allocation request finish : loc) (i : nat)
    (s : loc * bool) : prog (loc * bool) :=
  fs ← bools_at finish;
  f ← lift (getitem fs i);
  if negb f then
    ok ← all_request_le request s.1 i (range m);
    if (ok : bool) then
      zs ← release allocation s.1 i (range m);
      work' ← alloc (Ints zs);
      _ ← set_bool finish i true;
      mret (work', true)
    else mret s
  else mret s.

Fixpoint for_each (m : Z) (allocation request finish : loc)
    (order : list nat) (s : loc * bool) : prog (loc * bool) :=
  match order with
  | [] => mret s
  | i :: rest =>
      s' ← visit m allocation request finish i s;
      for_each m allocation request finish rest s'
  end.

Fixpoint while_true (fuel : nat) (m : Z) (allocation request finish : loc)
    (order : list nat) (work : loc) : prog loc :=
  match fuel with
  | O => lift OutOfFuel
  | S fuel' =>
      '(work', found) ← for_each m allocation request finish order (work, false);
      if (found : bool)
      then while_true fuel' m allocation request finish order work'
      else mret work'
  end.

(** [detect_deadlock] on the store; [[False] * n] as in the list model. *)
Definition detect_deadlock (fuel : nat) (n m : Z)
    (allocation request available : loc) : prog (bool * list nat * string) :=
  zs ← ints_at available;
  work ← alloc (Ints zs);
  finish ← alloc (Bools (replicate (Z.to_nat n) false));
  _ ← while_true fuel m allocation request finish (range n) work;
  fs ← bools_at finish;
  deadlocked ← lift (unfinished fs (range n));
  mret (report deadlocked).

(** The object at [mat] is the matrix [rows]. *)
Definition holds_matrix (h : store) (mat : loc) (rows : list (list Z)) : Prop :=
  ∃ ls, h !! mat = Some (Rows ls)
        ∧ Forall2 (λ l row, h !! l = Some (Ints row)) ls rows.

(** The object at [vec] is the vector [zs]. *)
Definition holds_vector (h : store) (vec : loc) (zs : list Z) : Prop :=
  h !! vec = Some (Ints zs).

(** The run [r] on the store and the result [o] of the list model end the
    same way, and [rel] relates what they return. *)
Definition agrees {X S} (rel : store → X → S → Prop)
    (r : outcome X * store) (o : outcome S) : Prop :=
  match r.1, o with
  | Return x, Return s => rel r.2 x s
  | Raise e, Raise e' => e = e'
  | OutOfFuel, OutOfFuel => True
  | _, _ => False
  end.

(** The loop variables [s] of the list model are in the store [h]: the
    objects of the caller's store [h0] are as they were, [x.1] is the
    address of [work] and [flags] that of [finish], a newer object. *)
Definition variables_at (h0 : store) (flags : loc) (h : store)
    (x : loc * bool) (s : vars) : Prop :=
  h0 `prefix_of` h ∧ (length h0 ≤ flags)%nat
  ∧ h !! x.1 = Some (Ints (work s))
  ∧ h !! flags = Some (Bools (finish s))
  ∧ x.2 = found s.

End Store.

(** ** Shapes and signs *)

(** A matrix of exactly [n] rows of exactly [m] columns. *)
Definition well_shaped (n m : Z) (mat : list (list Z)) : Prop :=
  len mat = n ∧ Forall (λ row, len row = m) mat.

(** Some entry of the matrix is negative. *)
Definition has_negative (mat : list (list Z)) : Prop :=
  ∃ row x, row ∈ mat ∧ x ∈ row ∧ x < 0.

(** No entry of the matrix is negative. *)
Definition non_negative (mat : list (list Z)) : Prop :=
  Forall (Forall (λ x, 0 ≤ x)) mat.

(** The state has passed the validator. *)
Definition valid_state (n m : Z) (allocation request : list (list Z))
    (available : list Z) : Prop :=
  validate_inputs n m allocation request available = Return (true, "").

(** Entry [(i, j)] of [allocation] or of [request] is negative. *)
Definition negative_at (allocation request : list (list Z)) (i j : nat) : Prop :=
  ∃ arow rrow a r, allocation !! i = Some arow ∧ request !! i = Some rrow
    ∧ arow !! j = Some a ∧ rrow !! j = Some r ∧ (a < 0 ∨ r < 0).

(** Every input is classified by the first check that fails. *)
Inductive verdict (n m : Z) (allocation request : list (list Z))
    (available : list Z) : bool * string → Prop :=
  | verdict_allocation_shape :
      ¬ well_shaped n m allocation →
      verdict n m allocation request available (false, msg_allocation_shape)
  | verdict_request_shape :
      well_shaped n m allocation → ¬ well_shaped n m request →
      verdict n m allocation request available (false, msg_request_shape)
  | verdict_available_len :
      well_shaped n m allocation → well_shaped n m request →
      len available ≠ m →
      verdict n m allocation request available (false, msg_available_len)
  | verdict_values_negative i j :
      well_shaped n m allocation → well_shaped n m request →
      len available = m →
      i ∈ range n → j ∈ range m → negative_at allocation request i j →
      verdict n m allocation request available (false, msg_values_negative)
  | verdict_available_negative x :
      well_shaped n m allocation → well_shaped n m request →
      len available = m →
      (∀ i j, i ∈ range n → j ∈ range m → ¬ negative_at allocation request i j) →
      x ∈ available → x < 0 →
      verdict n m allocation request available (false, msg_available_negative)
  | verdict_valid :
      well_shaped n m allocation → well_shaped n m request →
      len available = m →
      (∀ i j, i ∈ range n → j ∈ range m → ¬ negative_at allocation request i j) →
      Forall (λ x, 0 ≤ x) available →
      verdict n m allocation request available (true, "").

(** ** The advisor's victim *)

(** Every index of [deadlocked] is a row of [allocation]. *)
Definition covers (allocation : list (list Z)) (deadlocked : list Z) : Prop :=
  Forall (λ i, 0 ≤ i < len allocation) deadlocked.

(** [sum(allocation[i])] for a covered index. *)
Definition held (allocation : list (list Z)) (i : Z) : Z :=
  py_sum (default [] (allocation !! Z.to_nat i)).

(** The advice that names [victim]: the two strategies, then the
    recommendation, joined by ["<br>"]. *)
Definition advice_for (victim : Z) : string :=
  strategy_1 +:+ "<br>" +:+ strategy_2 +:+ "<br>" +:+ recommendation victim.

(** [v] is the first element of [l] of least [held] total. *)
Definition first_least (allocation : list (list Z)) (l : list Z) (v : Z) : Prop :=
  ∃ pre post, l = pre ++ v :: post
    ∧ (∀ x, x ∈ pre → held allocation v < held allocation x)
    ∧ (∀ x, x ∈ post → held allocation v ≤ held allocation x).

(** [v] has the least [held] total of [l], and the least index among the
    elements of that total. *)
Definition least_index (allocation : list (list Z)) (l : list Z) (v : Z) : Prop :=
  v ∈ l
  ∧ (∀ x, x ∈ l → held allocation v ≤ held allocation x)
  ∧ (∀ x, x ∈ l → held allocation x = held allocation v → v ≤ x).

(** ** The detector's steps *)

(** Process [i] can finish with the resources [w]:
    [request[i][j] <= w[j]] for every resource class [j]. *)
Definition can_finish (m : Z) (request : list (list Z)) (w : list Z)
    (i : nat) : Prop :=
  ∀ j, j ∈ range m → (request !!! i) !!! j ≤ w !!! j.

(** The resources after process [i] has released its allocation. *)
Definition grant (m : Z) (allocation : list (list Z)) (w : list Z)
    (i : nat) : list Z :=
  (λ j, w !!! j + (allocation !!! i) !!! j) <$> range m.

(** One unfinished process finishes and releases what it holds. *)
Inductive fires (m : Z) (allocation request : list (list Z))
    : list Z * list bool → list Z * list bool → Prop :=
  | fires_intro i w f :
      f !! i = Some false → can_finish m request w i →
      fires m allocation request (w, f) (grant m allocation w i, <[i:=true]> f).

(** No unfinished process among [ids] can finish. *)
Definition stuck (m : Z) (request : list (list Z)) (ids : list nat)
    (w : list Z) (f : list bool) : Prop :=
  ∀ i, i ∈ ids → f !! i = Some false → ¬ can_finish m request w i.

(** Units of resource class [j] released by the finished processes. *)
Fixpoint released (f : list bool) (rows : list (list Z)) (j : nat) : Z :=
  match f, rows with
  | b :: f', row :: rows' => (if b then row !!! j else 0) + released f' rows' j
  | _, _ => 0
  end.

(** The number of unfinished processes. *)
Definition pending (f : list bool) : nat := length (filter (λ b, b = false) f).

(** The shape of the loop variables: [finish] has a flag for each process,
    [work] an entry for each resource class. *)
Definition shaped (n m : Z) (w : list Z) (f : list bool) : Prop :=
  length f = Z.to_nat n ∧ length w = Z.to_nat m.

(** Every finished process of [f] is finished in [f']. *)
Definition below (f f' : list bool) : Prop :=
  ∀ i, f !! i = Some true → f' !! i = Some true.

(** [work] is [available] plus what the finished processes held. *)
Definition accounted (m : Z) (allocation : list (list Z)) (available : list Z)
    (w : list Z) (f : list bool) : Prop :=
  ∀ j, j ∈ range m → w !!! j = available !!! j + released f allocation j.

(** The variables at the entry of the loop. *)
Definition init_vars (n : Z) (available : list Z) : vars :=
  Vars available (replicate (Z.to_nat n) false) false.

(** ** The deadlocked set as a fixed point *)

(** The [finish] flags in which exactly the processes of [deadlocked] are
    unfinished. *)
Definition flags_without (n : Z) (deadlocked : list nat) : list bool :=
  (λ i, bool_decide (i ∉ deadlocked)) <$> range n.

(** Process [i] asks for more of some resource class than there is in
    [available] and in the hands of the processes outside [blocked_set]
    together. *)
Definition blocked_in (m : Z) (allocation request : list (list Z))
    (available : list Z) (n : Z) (blocked_set : list nat) (i : nat) : Prop :=
  ∃ j, j ∈ range m
       ∧ available !!! j + released (flags_without n blocked_set) allocation j
         < (request !!! i) !!! j.

(** [w] is below [w'] in every resource class. *)
Definition vector_le (m : Z) (w w' : list Z) : Prop :=
  ∀ j, j ∈ range m → w !!! j ≤ w' !!! j.

(** [mat] is below [mat'] in every entry. *)
Definition matrix_le (m : Z) (mat mat' : list (list Z)) : Prop :=
  ∀ i, vector_le m (mat !!! i) (mat' !!! i).

(** ** Ways a call can end *)

(** The call returns, or raises [IndexError]: it raises nothing else and
    is not cut short. *)
Definition returns_or_IndexError {A} (o : outcome A) : Prop :=
  (∃ a, o = Return a) ∨ o = Raise IndexError.

(** ** Subscripts of the advisor *)

(** [i] is a subscript that Python accepts for [allocation]: an index from
    the front, or a negative one from the end. *)
Definition subscript_ok (allocation : list (list Z)) (i : Z) : Prop :=
  - len allocation ≤ i < len allocation.

(** ** The request handler [index] and [save_to_db]

    The page that answers a request.  The form is a finite map from field
    names to the strings of the request; a missing field raises [KeyError],
    which [except ValueError] does not catch.  Python's [int] on a string is
    the parameter [py_int], [None] standing for its [ValueError].  The
    effect of [save_to_db] is the row of parameters of its [INSERT]; the
    handler returns, with the arguments of the template, the rows it has
    inserted.  The clock reading of [save_to_db], formatted, is the
    parameter [now]. *)
Module Web.

(** What a handler can raise: an exception of the core, or the [KeyError]
    of a missing form field. *)
Inductive raised : Type :=
  | Python (e : exn)
  | KeyError.

Inductive run (A : Type) : Type :=
  | Done (a : A)
  | Raised (e : raised)
  | CutShort.

Arguments Done {A} a.
Arguments Raised {A} e.
Arguments CutShort {A}.

#[global] Instance run_ret : MRet run := @Done.

#[global] Instance run_bind : MBind run := λ A B f x,
  match x with
  | Done a => f a
  | Raised e => Raised e
  | CutShort => CutShort
  end.

(** A call of a function of the core. *)
Definition call {A} (o : outcome A) : run A :=
  match o with
  | Return a => Done a
  | Raise e => Raised (Python e)
  | OutOfFuel => CutShort
  end.

(** [try: body except ValueError: handler]. *)
Definition except_ValueError {A} (body handler : run A) : run A :=
  match body with
  | Raised (Python ValueError) => handler
  | _ => body
  end.

(** The parameters of the [INSERT] of [save_to_db], in the order of its
    columns. *)
Record row : Type := Row {
  row_n : Z;
  row_m : Z;
  row_allocation : string;
  row_request : string;
  row_available : string;
  row_result : string;
  row_suggestions : string;
  row_timestamp : string
}.

(** The arguments of [render_template]. *)
Record page : Type := Page {
  result : option string;
  suggestions : option string
}.

(** [json.dumps] of a list of integers: [[1, 2]]. *)
Definition json_vector (zs : list Z) : string :=
  "[" +:+ String.concat ", " (pretty <$> zs) +:+ "]".

(** [json.dumps] of a list of lists of integers: [[[1, 0], [0, 1]]]. *)
Definition json_matrix (rows : list (list Z)) : string :=
  "[" +:+ String.concat ", " (json_vector <$> rows) +:+ "]".

Definition save_to_db (n m : Z) (allocation request : list (list Z))
    (available : list Z) (result0 suggestions0 now : string) : row :=
  Row n m (json_matrix allocation) (json_matrix request)
    (json_vector available) result0 suggestions0 now.

Section handler.
Variable py_int : string → option Z.

(** [int(request.form[key])]. *)
Definition field (form : gmap string string) (key : string) : run Z :=
  match form !! key with
  | None => Raised KeyError
  | Some s =>
      match py_int s with
      | Some z => Done z
      | None => Raised (Python ValueError)
      end
  end.

(** [[int(request.form[key]) for key in keys]]. *)
Fixpoint fields (form : gmap string string) (keys : list string)
    : run (list Z) :=
  match keys with
  | [] => Done []
  | key :: rest =>
      z ← field form key;
      zs ← fields form rest;
      Done (z :: zs)
  end.

(** The names [f'{prefix}_{i}_{j}'] for [j] in [range(m)]. *)
Definition cell_keys (prefix : string) (i : nat) (m : Z) : list string :=
  (λ j, prefix +:+ "_" +:+ pretty i +:+ "_" +:+ pretty j) <$> range m.

(** The names [f'avail_{j}'] for [j] in [range(m)]. *)
Definition avail_keys (m : Z) : list string :=
  (λ j, "avail_" +:+ pretty j) <$> range m.

(** [[[int(request.form[f'{prefix}_{i}_{j}']) for j in range(m)]
      for i in ids]]. *)
Fixpoint matrix (form : gmap string string) (prefix : string)
    (ids : list nat) (m : Z) : run (list (list Z)) :=
  match ids with
  | [] => Done []
  | i :: rest =>
      r ← fields form (cell_keys prefix i m);
      rs ← matrix form prefix rest m;
      Done (r :: rs)
  end.

(** Lines 154-158: the five assignments from the form, in their order. *)
Definition read_form (form : gmap string string)
    : run (Z * Z * list (list Z) * list (list Z) * list Z) :=
  n ← field form "n";
  m ← field form "m";
  allocation ← matrix form "alloc" (range n) m;
  request_matrix ← matrix form "req" (range n) m;
  available ← fields form (avail_keys m);
  Done (n, m, allocation, request_matrix, available).

(** Lines 160-167, after the form has been read. *)
Definition process (fuel : nat) (now : string) (n m : Z)
    (allocation request_matrix : list (list Z)) (available : list Z)
    : run (page * list row) :=
  '(valid, error) ← call (validate_inputs n m allocation request_matrix
                            available);
  if negb valid then
    Done (Page (Some ("Input error: " +:+ error)) None, [])
  else
    '(_, deadlocked, message) ← call (detect_deadlock fuel n m allocation
                                        request_matrix available);
    advice ← call (suggest_resolution (Z.of_nat <$> deadlocked) allocation
                     request_matrix);
    Done (Page (Some message) (Some advice),
          [save_to_db n m allocation request_matrix available message
             advice now]).

Definition index (fuel : nat) (now : string) (method : string)
    (form : gmap string string) : run (page * list row) :=
  if String.eqb method "POST" then
    except_ValueError
      ('(n, m, allocation, request_matrix, available) ← read_form form;
       process fuel now n m allocation request_matrix available)
      (Done (Page (Some "Invalid input. Enter integers only.") None, []))
  else Done (Page None None, []).

End handler.

(** A form of one process and one resource class, and [int] on the strings
    that it holds, for the examples. *)
Definition sample_int (s : string) : option Z :=
  if String.eqb s "1" then Some 1
  else if String.eqb s "0" then Some 0
  else if String.eqb s "-1" then Some (-1)
  else None.

Definition sample_form : gmap string string :=
  list_to_map [("n", "1"); ("m", "1"); ("alloc_0_0", "1");
               ("req_0_0", "0"); ("avail_0", "0")].

End Web.

(** * Properties *)

(** ** The scenarios of the specification, run on the model *)

Example scenario_safe_state :
  detect_deadlock 6 5 3
    [[0;1;0];[2;0;0];[3;0;2];[2;1;1];[0;0;2]]
    [[0;0;0];[2;0;2];[0;0;1];[1;0;0];[0;0;2]]
    [3;3;2]
  = Return (false, [], "No deadlock detected.").
Proof. vm_compute. reflexivity. Qed.

Example scenario_hold_and_wait :
  detect_deadlock 4 3 1 [[1];[1];[1]] [[1];[1];[1]] [0]
  = Return (true, [0; 1; 2]%nat, "Deadlock detected in processes: [0, 1, 2].").
Proof. vm_compute. reflexivity. Qed.

Example scenario_circular_wait :
  detect_deadlock 3 2 2 [[1;0];[0;1]] [[0;1];[1;0]] [0;0]
  = Return (true, [0; 1]%nat, "Deadlock detected in processes: [0, 1].").
Proof. vm_compute. reflexivity. Qed.

Example scenario_empty_system :
  validate_inputs 0 0 [] [] [] = Return (true, "")
  ∧ detect_deadlock 1 0 0 [] [] [] = Return (false, [], "No deadlock detected.")
  ∧ suggest_resolution [] [] [] = Return "No action required.".
Proof. vm_compute. auto. Qed.

(** ** The validator *)

Lemma shape_test_false n m mat :
  negb (len mat =? n) || existsb (λ row, negb (len row =? m)) mat = false
  ↔ well_shaped n m mat.
Proof.
  unfold well_shaped. rewrite orb_false_iff, negb_false_iff, Z.eqb_eq.
  apply and_iff_compat_l. rewrite Forall_forall. split.
  - intros Hex row Hin.
    destruct (Z.eqb_spec (len row) m) as [|Hne]; [done|].
    assert (existsb (λ row, negb (len row =? m)) mat = true) as Habs; [|congruence].
    apply existsb_exists. exists row. split; [by apply list_elem_of_In|].
    by apply negb_true_iff, Z.eqb_neq.
  - intros Hall. apply not_true_iff_false. intros Hex.
    apply existsb_exists in Hex as (row & Hin & Hrow).
    apply negb_true_iff, Z.eqb_neq in Hrow. apply Hrow, Hall.
    by apply list_elem_of_In.
Qed.

Lemma shape_test_true n m mat :
  negb (len mat =? n) || existsb (λ row, negb (len row =? m)) mat = true
  ↔ ¬ well_shaped n m mat.
Proof. rewrite <- shape_test_false. by destruct (_ || _). Qed.

Lemma elem_of_range n i : i ∈ range n ↔ (Z.of_nat i < n).
Proof. unfold range. rewrite elem_of_seq. lia. Qed.

Lemma well_shaped_lookup n m mat i :
  well_shaped n m mat → Z.of_nat i < n →
  ∃ row, mat !! i = Some row ∧ len row = m.
Proof.
  intros [Hlen Hrows] Hi. unfold len in *.
  destruct (lookup_lt_is_Some_2 mat i) as [row Hrow]; [lia|].
  exists row. split; [done|].
  rewrite Forall_forall in Hrows. apply Hrows.
  by eapply list_elem_of_lookup_2.
Qed.

Lemma getitem_Some {A} (l : list A) i x : l !! i = Some x → getitem l i = Return x.
Proof. unfold getitem. by intros ->. Qed.

Lemma getitem_lt {A} (l : list A) i :
  (i < length l)%nat → ∃ x, l !! i = Some x ∧ getitem l i = Return x.
Proof.
  intros Hi. destruct (lookup_lt_is_Some_2 l i Hi) as [x Hx].
  exists x. split; [done|]. by apply getitem_Some.
Qed.

Lemma check_row_total allocation request i arow rrow js :
  allocation !! i = Some arow → request !! i = Some rrow →
  (∀ j, j ∈ js → (j < length arow)%nat ∧ (j < length rrow)%nat) →
  (check_row allocation request i js = Return None
     ∧ ∀ j, j ∈ js → ¬ negative_at allocation request i j)
  ∨ (check_row allocation request i js = Return (Some (false, msg_values_negative))
     ∧ ∃ j, j ∈ js ∧ negative_at allocation request i j).
Proof.
  intros Ha Hr. induction js as [|j js IH]; intros Hjs.
  - left. split; [done|]. intros j Hj. by apply elem_of_nil in Hj.
  - destruct (Hjs j) as [Hja Hjr]; [by left|].
    destruct (getitem_lt arow j Hja) as (a & Haj & Hga).
    destruct (getitem_lt rrow j Hjr) as (r & Hrj & Hgr).
    cbn [check_row]. rewrite (getitem_Some _ _ _ Ha). cbn. rewrite Hga. cbn.
    destruct (Z.ltb_spec a 0) as [Hneg|Hpos].
    { right. split; [done|]. exists j. split; [by left|].
      exists arow, rrow, a, r. auto 10. }
    rewrite (getitem_Some _ _ _ Hr). cbn. rewrite Hgr. cbn.
    destruct (Z.ltb_spec r 0) as [Hneg'|Hpos'].
    { right. split; [done|]. exists j. split; [by left|].
      exists arow, rrow, a, r. auto 10. }
    destruct IH as [[-> Hnone]|[-> (j' & Hj' & Hat)]].
    + intros j' Hj'. apply Hjs. by right.
    + left. split; [done|]. intros j' Hj'.
      apply elem_of_cons in Hj' as [->|Hj']; [|by apply Hnone].
      intros (arow' & rrow' & a' & r' & Ha' & Hr' & Haj' & Hrj' & Hlt).
      simplify_eq. lia.
    + right. split; [done|]. exists j'. split; [by right|done].
Qed.

Lemma check_rows_total n m allocation request ids :
  well_shaped n m allocation → well_shaped n m request →
  (∀ i, i ∈ ids → Z.of_nat i < n) →
  (check_rows allocation request ids (range m) = Return None
     ∧ ∀ i j, i ∈ ids → j ∈ range m → ¬ negative_at allocation request i j)
  ∨ (check_rows allocation request ids (range m)
       = Return (Some (false, msg_values_negative))
     ∧ ∃ i j, i ∈ ids ∧ j ∈ range m ∧ negative_at allocation request i j).
Proof.
  intros Hsa Hsr. induction ids as [|i ids IH]; intros Hids.
  - left. split; [done|]. intros i j Hi. by apply elem_of_nil in Hi.
  - destruct (well_shaped_lookup _ _ _ i Hsa) as (arow & Ha & Hla);
      [apply Hids; by left|].
    destruct (well_shaped_lookup _ _ _ i Hsr) as (rrow & Hr & Hlr);
      [apply Hids; by left|].
    cbn [check_rows].
    destruct (check_row_total allocation request i arow rrow (range m) Ha Hr)
      as [[-> Hnone]|[-> (j & Hj & Hat)]].
    + intros j Hj%elem_of_range. unfold len in *. lia.
    + cbn. destruct IH as [[-> Hnone']|[-> (i' & j' & Hi' & Hj' & Hat)]].
      * intros i' Hi'. apply Hids. by right.
      * left. split; [done|]. intros i' j' Hi' Hj'.
        apply elem_of_cons in Hi' as [->|Hi']; auto.
      * right. split; [done|]. exists i', j'. split; [by right|done].
    + cbn. right. split; [done|]. exists i, j. split; [by left|done].
Qed.

Lemma check_available_total available :
  (check_available available = None ∧ Forall (λ x, 0 ≤ x) available)
  ∨ (check_available available = Some (false, msg_available_negative)
     ∧ ∃ x, x ∈ available ∧ x < 0).
Proof.
  induction available as [|val rest IH]; [left; by split|].
  cbn [check_available]. destruct (Z.ltb_spec val 0) as [Hneg|Hpos].
  - right. split; [done|]. exists val. split; [by left|done].
  - destruct IH as [[-> Hall]|[-> (x & Hx & Hlt)]].
    + left. split; [done|]. by constructor.
    + right. split; [done|]. exists x. split; [by right|done].
Qed.

(** The validator never raises: it returns a verdict on every input. *)
Lemma validate_inputs_total n m allocation request available :
  ∃ res, validate_inputs n m allocation request available = Return res
         ∧ verdict n m allocation request available res.
Proof.
  unfold validate_inputs.
  destruct (negb (len allocation =? n) || _) eqn:Hta.
  { eexists. split; [done|]. constructor. by apply shape_test_true. }
  apply shape_test_false in Hta.
  destruct (negb (len request =? n) || _) eqn:Htr.
  { eexists. split; [done|]. constructor; [done|]. by apply shape_test_true. }
  apply shape_test_false in Htr.
  destruct (Z.eqb_spec (len available) m) as [Hav|Hav]; cbn [negb].
  2:{ eexists. split; [done|]. by constructor. }
  destruct (check_rows_total n m allocation request (range n) Hta Htr)
    as [[-> Hnone]|[-> (i & j & Hi & Hj & Hat)]].
  { intros i. by rewrite elem_of_range. }
  2:{ cbn. eexists. split; [done|]. by econstructor. }
  cbn. destruct (check_available_total available)
    as [[-> Hall]|[-> (x & Hx & Hlt)]].
  - eexists. split; [done|]. by constructor.
  - eexists. split; [done|]. by econstructor.
Qed.

Lemma has_negative_at n m allocation request :
  well_shaped n m allocation → well_shaped n m request →
  has_negative allocation ∨ has_negative request →
  ∃ i j, i ∈ range n ∧ j ∈ range m ∧ negative_at allocation request i j.
Proof.
  intros Hsa Hsr Hneg.
  assert (∃ i j x mat, (mat = allocation ∨ mat = request) ∧ well_shaped n m mat
            ∧ (∃ row, mat !! i = Some row ∧ row !! j = Some x) ∧ x < 0)
    as (i & j & x & mat & Hmat & Hsm & (row & Hi & Hj) & Hlt).
  { destruct Hneg as [(row & x & Hrow & Hx & Hlt)|(row & x & Hrow & Hx & Hlt)];
      apply list_elem_of_lookup in Hrow as [i Hi];
      apply list_elem_of_lookup in Hx as [j Hj]; exists i, j, x.
    - exists allocation. eauto 10.
    - exists request. eauto 10. }
  assert (Z.of_nat i < n) as Hin.
  { destruct Hsm as [<- _]. apply lookup_lt_Some in Hi. unfold len. lia. }
  assert (Z.of_nat j < m) as Hjm.
  { destruct (well_shaped_lookup _ _ _ i Hsm Hin) as (row' & Hi' & Hlen).
    simplify_eq. apply lookup_lt_Some in Hj. unfold len. lia. }
  destruct (well_shaped_lookup _ _ _ i Hsa Hin) as (arow & Ha & Hla).
  destruct (well_shaped_lookup _ _ _ i Hsr Hin) as (rrow & Hr & Hlr).
  destruct (lookup_lt_is_Some_2 arow j) as [a Haj]; [unfold len in *; lia|].
  destruct (lookup_lt_is_Some_2 rrow j) as [r Hrj]; [unfold len in *; lia|].
  exists i, j. rewrite !elem_of_range. split; [done|]. split; [done|].
  exists arow, rrow, a, r. repeat (split; [done|]).
  destruct Hmat as [->| ->]; simplify_eq; auto.
Qed.

Lemma non_negative_at allocation request i j :
  non_negative allocation → non_negative request →
  ¬ negative_at allocation request i j.
Proof.
  unfold non_negative. rewrite !Forall_forall.
  intros Hna Hnr (arow & rrow & a & r & Ha & Hr & Haj & Hrj & Hlt).
  apply list_elem_of_lookup_2 in Ha, Hr, Haj, Hrj.
  specialize (Hna _ Ha). specialize (Hnr _ Hr).
  rewrite Forall_forall in Hna, Hnr.
  specialize (Hna _ Haj). specialize (Hnr _ Hrj). lia.
Qed.

Lemma negative_at_non_negative n m mat mat' :
  well_shaped n m mat → well_shaped n m mat' →
  (∀ i j, i ∈ range n → j ∈ range m → ¬ negative_at mat mat' i j) →
  non_negative mat.
Proof.
  intros Hs Hs' Hno. apply Forall_forall. intros row Hrow.
  apply Forall_forall. intros x Hx.
  destruct (Z.le_gt_cases 0 x) as [|Hlt]; [done|exfalso].
  destruct (has_negative_at n m mat mat' Hs Hs') as (i & j & Hi & Hj & Hat).
  { left. by exists row, x. }
  by apply (Hno i j Hi Hj).
Qed.

(** What a valid state is. *)
Lemma valid_state_inv n m allocation request available :
  valid_state n m allocation request available ↔
  well_shaped n m allocation ∧ well_shaped n m request ∧ len available = m
  ∧ non_negative allocation ∧ non_negative request
  ∧ Forall (λ x, 0 ≤ x) available.
Proof.
  unfold valid_state. split.
  - intros Hv.
    destruct (validate_inputs_total n m allocation request available)
      as (res & Hres & Hverdict).
    rewrite Hv in Hres. injection Hres as <-.
    inversion Hverdict as [| | | | |Hsa Hsr Hlen Hno Hav].
    assert (∀ i j, ¬ negative_at request allocation i j
                   ↔ ¬ negative_at allocation request i j) as Hsym.
    { intros i j. apply not_iff_compat. unfold negative_at.
      split; intros (r1 & r2 & x1 & x2 & ? & ? & ? & ? & Hor);
        exists r2, r1, x2, x1; tauto. }
    repeat (split; [done|]). split; [|split; [|done]].
    + by apply (negative_at_non_negative n m allocation request).
    + apply (negative_at_non_negative n m request allocation); auto.
      intros i j Hi Hj. rewrite Hsym. auto.
  - intros (Hsa & Hsr & Hlen & Hna & Hnr & Hav).
    destruct (validate_inputs_total n m allocation request available)
      as (res & -> & Hverdict).
    f_equal.
    inversion Hverdict as [| | |i j ? ? ? ? ? Hat|x ? ? ? ? Hx Hlt|]; try done.
    + by apply non_negative_at in Hat.
    + rewrite Forall_forall in Hav. specialize (Hav _ Hx). lia.
Qed.

(** C4.  An input whose allocation matrix is not [n] rows of [m] columns,
    whose request matrix is not [n] rows of [m] columns, or whose available
    vector does not have [m] elements is rejected: [validate_inputs] returns
    [(False, reason)] with a non-empty reason.  The reason is that of the
    first failing check in the order allocation shape, request shape,
    available length; in particular with [n = 2] and three allocation rows
    it is "Allocation matrix must be n x m.". *)
Theorem validate_inputs_rejects_shape n m allocation request available :
  ¬ (well_shaped n m allocation ∧ well_shaped n m request ∧ len available = m) →
  ∃ reason,
    validate_inputs n m allocation request available = Return (false, reason)
    ∧ reason ≠ ""
    ∧ (¬ well_shaped n m allocation →
         reason = "Allocation matrix must be n x m.")
    ∧ (well_shaped n m allocation → ¬ well_shaped n m request →
         reason = "Request matrix must be n x m.")
    ∧ (well_shaped n m allocation → well_shaped n m request →
         reason = "Available vector must have m elements.")
    ∧ (n = 2 → length allocation = 3%nat →
         reason = "Allocation matrix must be n x m.").
Proof.
  intros Hbad.
  destruct (validate_inputs_total n m allocation request available)
    as (res & -> & Hverdict).
  inversion Hverdict as [Ha|Ha Hr|Ha Hr Hav| | |]; subst; try tauto.
  - eexists. split; [done|]. split; [done|]. repeat split; tauto.
  - eexists. split; [done|]. split; [done|]. repeat split; try tauto.
    intros -> Hlen. destruct Ha as [Ha _]. unfold len in Ha. lia.
  - eexists. split; [done|]. split; [done|]. repeat split; try tauto.
    intros -> Hlen. destruct Ha as [Ha _]. unfold len in Ha. lia.
Qed.

Lemma validate_inputs_rejects_shape_witness :
  ¬ (well_shaped 2 1 [[0]; [0]; [0]] ∧ well_shaped 2 1 [[0]; [0]]
     ∧ len [0] = 1)
  ∧ ∃ reason,
      validate_inputs 2 1 [[0]; [0]; [0]] [[0]; [0]] [0] = Return (false, reason)
      ∧ reason = "Allocation matrix must be n x m.".
Proof.
  assert (¬ (well_shaped 2 1 [[0]; [0]; [0]] ∧ well_shaped 2 1 [[0]; [0]]
             ∧ len [0] = 1)) as Hbad.
  { intros [[Hlen _] _]. vm_compute in Hlen. discriminate. }
  split; [exact Hbad|].
  destruct (validate_inputs_rejects_shape 2 1 [[0]; [0]; [0]] [[0]; [0]] [0] Hbad)
    as (reason & Hres & _ & _ & _ & _ & Hthree).
  exists reason. split; [exact Hres|]. apply Hthree; reflexivity.
Defined.

(** C5.  An input with a negative entry in the allocation matrix, in the
    request matrix or in the available vector is rejected; when its shapes
    are wrong the reason is a shape reason, and otherwise it is one of the
    two sign reasons.  Conversely a well-shaped input whose entries are all
    non-negative is accepted with [(True, "")]. *)
Theorem validate_inputs_rejects_negatives n m allocation request available :
  (has_negative allocation ∨ has_negative request
     ∨ (∃ x, x ∈ available ∧ x < 0) →
   ∃ reason,
     validate_inputs n m allocation request available = Return (false, reason)
     ∧ (¬ (well_shaped n m allocation ∧ well_shaped n m request
           ∧ len available = m) →
        reason ∈ [msg_allocation_shape; msg_request_shape; msg_available_len])
     ∧ (well_shaped n m allocation ∧ well_shaped n m request
        ∧ len available = m →
        reason ∈ [msg_values_negative; msg_available_negative]))
  ∧ (well_shaped n m allocation → well_shaped n m request →
     len available = m →
     non_negative allocation → non_negative request →
     Forall (λ x, 0 ≤ x) available →
     validate_inputs n m allocation request available = Return (true, "")).
Proof.
  split.
  - intros Hneg.
    destruct (validate_inputs_total n m allocation request available)
      as (res & -> & Hverdict).
    inversion Hverdict as [Ha|Ha Hr|Ha Hr Hav|i j Ha Hr Hav Hi Hj Hat
                           |x Ha Hr Hav Hno Hx Hlt|Ha Hr Hav Hno Hall].
    + eexists. split; [done|]. split; [|tauto]. intros _. rewrite !elem_of_cons. auto.
    + eexists. split; [done|]. split; [|tauto]. intros _. rewrite !elem_of_cons. auto.
    + eexists. split; [done|]. split; [|tauto]. intros _. rewrite !elem_of_cons. auto.
    + eexists. split; [done|]. split; [tauto|]. intros _. rewrite !elem_of_cons. auto.
    + eexists. split; [done|]. split; [tauto|]. intros _. rewrite !elem_of_cons. auto.
    + exfalso. destruct Hneg as [Hneg|[Hneg|(x & Hx & Hlt)]].
      * destruct (has_negative_at n m allocation request Ha Hr)
          as (i & j & Hi & Hj & Hat); [by left|]. by apply (Hno i j).
      * destruct (has_negative_at n m allocation request Ha Hr)
          as (i & j & Hi & Hj & Hat); [by right|]. by apply (Hno i j).
      * rewrite Forall_forall in Hall. specialize (Hall _ Hx). lia.
  - intros Ha Hr Hav Hna Hnr Hall. by apply valid_state_inv.
Qed.

Lemma validate_inputs_rejects_negatives_witness :
  (has_negative [[1; -1]] ∨ has_negative [[0; 0]] ∨ (∃ x, x ∈ [0; 0] ∧ x < 0))
  ∧ (∃ reason, validate_inputs 1 2 [[1; -1]] [[0; 0]] [0; 0]
               = Return (false, reason))
  ∧ validate_inputs 1 2 [[1; 0]] [[0; 2]] [3; 0] = Return (true, "").
Proof.
  assert (has_negative [[1; -1]] ∨ has_negative [[0; 0]]
          ∨ (∃ x, x ∈ [0; 0] ∧ x < 0)) as Hneg.
  { left. exists [1; -1], (-1). split; [repeat constructor|].
    split; [repeat constructor|lia]. }
  split; [exact Hneg|]. split.
  - destruct (proj1 (validate_inputs_rejects_negatives 1 2 [[1; -1]] [[0; 0]]
                       [0; 0]) Hneg) as (reason & Hres & _).
    exists reason. exact Hres.
  - apply (proj2 (validate_inputs_rejects_negatives 1 2 [[1; 0]] [[0; 2]]
                    [3; 0])).
    + split; [reflexivity|]. repeat constructor.
    + split; [reflexivity|]. repeat constructor.
    + reflexivity.
    + repeat constructor; lia.
    + repeat constructor; lia.
    + repeat constructor; lia.
Defined.

(** ** The advisor *)

Lemma row_sum_covered allocation i :
  0 ≤ i < len allocation →
  row_sum allocation i = Return (held allocation i).
Proof.
  intros [Hlo Hhi]. unfold row_sum, getitem_int, held.
  destruct (Z.leb_spec 0 i) as [_|]; [|lia].
  destruct (getitem_lt allocation (Z.to_nat i)) as (row & Hrow & ->).
  { unfold len in Hhi. lia. }
  by rewrite Hrow.
Qed.

Lemma first_least_le allocation l v x :
  first_least allocation l v → x ∈ l →
  held allocation v ≤ held allocation x.
Proof.
  intros (pre & post & -> & Hpre & Hpost) Hx.
  apply elem_of_app in Hx as [Hx|Hx]; [specialize (Hpre _ Hx); lia|].
  apply elem_of_cons in Hx as [->|Hx]; [lia|by apply Hpost].
Qed.

Lemma first_least_elem allocation l v : first_least allocation l v → v ∈ l.
Proof.
  intros (pre & post & -> & _). apply elem_of_app. right. by left.
Qed.

Lemma min_scan_first_least allocation rest : ∀ best,
  covers allocation rest →
  ∃ v, min_scan (row_sum allocation) best (held allocation best) rest = Return v
       ∧ first_least allocation (best :: rest) v.
Proof.
  induction rest as [|x rest IH]; intros best Hcov.
  - exists best. split; [done|]. exists [], []. split; [done|].
    split; intros x Hx; by apply elem_of_nil in Hx.
  - apply Forall_cons in Hcov as [Hx Hcov]. cbn [min_scan].
    rewrite (row_sum_covered _ _ Hx). cbn.
    destruct (Z.ltb_spec (held allocation x) (held allocation best)) as [Hlt|Hge].
    + destruct (IH x Hcov) as (v & -> & Hv). exists v. split; [done|].
      pose proof (first_least_le _ _ _ x Hv ltac:(by left)) as Hvx.
      destruct Hv as (pre & post & Heq & Hpre & Hpost).
      exists (best :: pre), post. rewrite Heq. split; [done|]. split; [|done].
      intros y Hy. apply elem_of_cons in Hy as [->|Hy]; [lia|by apply Hpre].
    + destruct (IH best Hcov) as (v & -> & Hv). exists v. split; [done|].
      destruct Hv as (pre & post & Heq & Hpre & Hpost).
      destruct pre as [|b pre]; simplify_eq/=.
      * exists [], (x :: post). split; [done|]. split.
        -- intros y Hy. by apply elem_of_nil in Hy.
        -- intros y Hy. apply elem_of_cons in Hy as [->|Hy]; [lia|by apply Hpost].
      * exists (b :: x :: pre), post. split; [done|]. split; [|done].
        intros y Hy. pose proof (Hpre b ltac:(by left)).
        apply elem_of_cons in Hy as [->|Hy]; [done|].
        apply elem_of_cons in Hy as [->|Hy]; [lia|]. apply Hpre. by right.
Qed.

(** [min] over a non-empty covered list returns its first least element. *)
Lemma py_min_first_least allocation deadlocked :
  deadlocked ≠ [] → covers allocation deadlocked →
  ∃ v, py_min (row_sum allocation) deadlocked = Return v
       ∧ first_least allocation deadlocked v.
Proof.
  destruct deadlocked as [|x rest]; [done|]. intros _ Hcov.
  apply Forall_cons in Hcov as [Hx Hcov]. cbn [py_min].
  rewrite (row_sum_covered _ _ Hx). cbn.
  by apply min_scan_first_least.
Qed.

Lemma suggest_resolution_victim deadlocked allocation request v :
  deadlocked ≠ [] →
  py_min (row_sum allocation) deadlocked = Return v →
  suggest_resolution deadlocked allocation request = Return (advice_for v).
Proof.
  intros Hne Hmin. unfold suggest_resolution.
  destruct deadlocked as [|x rest]; [done|]. by rewrite Hmin.
Qed.

(** In an ascending list the first least element has the least index. *)
Lemma first_least_sorted allocation l v :
  StronglySorted Z.le l → first_least allocation l v →
  least_index allocation l v.
Proof.
  intros Hsorted Hv. split; [by eapply first_least_elem|].
  split; [intros x Hx; by eapply first_least_le|].
  destruct Hv as (pre & post & -> & Hpre & Hpost). intros x Hx Heq.
  apply elem_of_app in Hx as [Hx|Hx]; [specialize (Hpre _ Hx); lia|].
  apply elem_of_cons in Hx as [->|Hx]; [lia|].
  apply StronglySorted_app_1_r in Hsorted.
  apply StronglySorted_inv in Hsorted as [_ Hall].
  rewrite Forall_forall in Hall. by apply Hall.
Qed.

Lemma row_sum_not_ValueError allocation i :
  row_sum allocation i ≠ Raise ValueError.
Proof.
  unfold row_sum, getitem_int, getitem.
  repeat case_match; cbn; congruence.
Qed.

Lemma min_scan_not_ValueError allocation rest : ∀ best best_key,
  min_scan (row_sum allocation) best best_key rest ≠ Raise ValueError.
Proof.
  induction rest as [|x rest IH]; intros best best_key; [done|].
  cbn [min_scan]. pose proof (row_sum_not_ValueError allocation x) as Hx.
  destruct (row_sum allocation x) as [k|e|]; cbn; [|congruence|done].
  destruct (k <? best_key); apply IH.
Qed.

(** C2 does not hold for every list.  With the list [[1, 0]] and the rows
    [[1, 0]] and [[0, 1]] both processes hold one unit; the advisor names
    process 1, the first of the list, and process 0 has the smaller index. *)
Lemma suggest_resolution_least_index_counterexample :
  [1; 0] ≠ [] ∧ covers [[1; 0]; [0; 1]] [1; 0]
  ∧ suggest_resolution [1; 0] [[1; 0]; [0; 1]] [[0; 1]; [1; 0]]
    = Return (advice_for 1)
  ∧ ¬ ∃ v, suggest_resolution [1; 0] [[1; 0]; [0; 1]] [[0; 1]; [1; 0]]
           = Return (advice_for v)
           ∧ least_index [[1; 0]; [0; 1]] [1; 0] v.
Proof.
  split; [done|]. split; [repeat constructor; done|]. split; [reflexivity|].
  intros (v & Hres & Hin & _ & Hleast).
  assert (v = 0) as ->.
  { pose proof (Hleast 0 ltac:(repeat constructor)) as H0.
    apply elem_of_cons in Hin as [->|Hin].
    - specialize (H0 eq_refl). lia.
    - apply elem_of_cons in Hin as [->|Hin]; [done|]. by apply elem_of_nil in Hin. }
  vm_compute in Hres. discriminate.
Qed.

(** C2, amended.  For a non-empty list of deadlocked processes covered by
    the allocation matrix, the advisor names the first process of the list
    whose allocation row sum is least: every process before it in the list
    holds strictly more, every process after it holds at least as much.
    When the list is in ascending index order, this is the process of least
    index among those of least sum; for the list [[0, 1]] with the rows
    [[1, 0]] and [[0, 1]] it is process 0. *)
Theorem suggest_resolution_first_least deadlocked allocation request :
  deadlocked ≠ [] → covers allocation deadlocked →
  ∃ v, suggest_resolution deadlocked allocation request = Return (advice_for v)
       ∧ first_least allocation deadlocked v
       ∧ (StronglySorted Z.le deadlocked → least_index allocation deadlocked v)
       ∧ (deadlocked = [0; 1] → allocation = [[1; 0]; [0; 1]] → v = 0).
Proof.
  intros Hne Hcov.
  destruct (py_min_first_least allocation deadlocked Hne Hcov) as (v & Hmin & Hv).
  exists v. split; [by apply suggest_resolution_victim|]. split; [done|].
  split; [intros Hs; by apply first_least_sorted|].
  intros -> ->.
  destruct (first_least_sorted [[1; 0]; [0; 1]] [0; 1] v) as (Hin & _ & Hleast);
    [repeat constructor; lia|done|].
  specialize (Hleast 0 ltac:(repeat constructor)).
  apply elem_of_cons in Hin as [->|Hin]; [done|].
  apply elem_of_cons in Hin as [->|Hin]; [|by apply elem_of_nil in Hin].
  specialize (Hleast eq_refl). lia.
Qed.

Lemma suggest_resolution_first_least_witness :
  [2; 0; 1] ≠ [] ∧ covers [[1; 1]; [0; 2]; [3; 0]] [2; 0; 1]
  ∧ ∃ v, suggest_resolution [2; 0; 1] [[1; 1]; [0; 2]; [3; 0]] []
         = Return (advice_for v)
         ∧ first_least [[1; 1]; [0; 2]; [3; 0]] [2; 0; 1] v.
Proof.
  assert (covers [[1; 1]; [0; 2]; [3; 0]] [2; 0; 1]) as Hcov.
  { repeat constructor; done. }
  split; [discriminate|]. split; [exact Hcov|].
  destruct (suggest_resolution_first_least [2; 0; 1] [[1; 1]; [0; 2]; [3; 0]] []
              ltac:(discriminate) Hcov) as (v & Hres & Hv & _).
  exists v. split; [exact Hres|exact Hv].
Defined.

(** C10.  For a non-empty list of deadlocked processes whose indices are
    rows of the allocation matrix, [min] returns a victim, so the handler of
    [ValueError] is not entered and the advice is the two strategy
    statements followed by the recommendation of that victim.  [min] raises
    [ValueError] on the empty list only, and for the empty list the function
    has already returned "No action required.". *)
Theorem suggest_resolution_handler_unreachable deadlocked allocation request :
  deadlocked ≠ [] → covers allocation deadlocked →
  (∃ v, py_min (row_sum allocation) deadlocked = Return v
        ∧ suggest_resolution deadlocked allocation request
          = Return (String.concat "<br>"
                      [strategy_1; strategy_2; recommendation v]))
  ∧ (∀ l, py_min (row_sum allocation) l = Raise ValueError → l = [])
  ∧ suggest_resolution [] allocation request = Return "No action required.".
Proof.
  intros Hne Hcov. split; [|split; [|done]].
  - destruct (py_min_first_least allocation deadlocked Hne Hcov) as (v & Hmin & _).
    exists v. split; [done|].
    by rewrite (suggest_resolution_victim _ _ request _ Hne Hmin).
  - intros [|x rest]; [done|]. cbn [py_min]. intros Hraise. exfalso.
    pose proof (row_sum_not_ValueError allocation x) as Hx.
    destruct (row_sum allocation x) as [k|e|]; cbn in Hraise; [|congruence|done].
    by apply min_scan_not_ValueError in Hraise.
Qed.

Lemma suggest_resolution_handler_unreachable_witness :
  [0; 1] ≠ [] ∧ covers [[1; 0]; [0; 1]] [0; 1]
  ∧ ∃ v, py_min (row_sum [[1; 0]; [0; 1]]) [0; 1] = Return v
         ∧ suggest_resolution [0; 1] [[1; 0]; [0; 1]] [[0; 1]; [1; 0]]
           = Return (String.concat "<br>"
                       [strategy_1; strategy_2; recommendation v]).
Proof.
  assert (covers [[1; 0]; [0; 1]] [0; 1]) as Hcov.
  { repeat constructor; done. }
  split; [discriminate|]. split; [exact Hcov|].
  exact (proj1 (suggest_resolution_handler_unreachable [0; 1] [[1; 0]; [0; 1]]
                  [[0; 1]; [1; 0]] ltac:(discriminate) Hcov)).
Defined.

(** ** The detector: the loop body *)

Lemma getitem_total {A} `{!Inhabited A} (l : list A) i :
  (i < length l)%nat → getitem l i = Return (l !!! i).
Proof.
  intros Hi. apply getitem_Some. by apply list_lookup_lookup_total_lt.
Qed.

Lemma all_request_le_total request w i rrow js :
  request !! i = Some rrow →
  (∀ j, j ∈ js → (j < length rrow)%nat ∧ (j < length w)%nat) →
  (all_request_le request w i js = Return true
     ∧ ∀ j, j ∈ js → rrow !!! j ≤ w !!! j)
  ∨ (all_request_le request w i js = Return false
     ∧ ∃ j, j ∈ js ∧ w !!! j < rrow !!! j).
Proof.
  intros Hr. induction js as [|j js IH]; intros Hjs.
  - left. split; [done|]. intros j Hj. by apply elem_of_nil in Hj.
  - destruct (Hjs j) as [Hjr Hjw]; [by left|].
    cbn [all_request_le]. rewrite (getitem_Some _ _ _ Hr). cbn.
    rewrite (getitem_total rrow j Hjr). cbn.
    rewrite (getitem_total w j Hjw). cbn.
    destruct (Z.leb_spec (rrow !!! j) (w !!! j)) as [Hle|Hgt].
    + destruct IH as [[-> Hall]|[-> (j' & Hj' & Hlt)]].
      * intros j' Hj'. apply Hjs. by right.
      * left. split; [done|]. intros j' Hj'.
        apply elem_of_cons in Hj' as [->|Hj']; auto.
      * right. split; [done|]. exists j'. split; [by right|done].
    + right. split; [done|]. exists j. split; [by left|done].
Qed.

Lemma release_total allocation w i arow js :
  allocation !! i = Some arow →
  (∀ j, j ∈ js → (j < length arow)%nat ∧ (j < length w)%nat) →
  release allocation w i js = Return ((λ j, w !!! j + arow !!! j) <$> js).
Proof.
  intros Ha. induction js as [|j js IH]; intros Hjs; [done|].
  destruct (Hjs j) as [Hja Hjw]; [by left|].
  cbn [release]. rewrite (getitem_total w j Hjw). cbn.
  rewrite (getitem_Some _ _ _ Ha). cbn.
  rewrite (getitem_total arow j Hja). cbn.
  rewrite IH; [done|]. intros j' Hj'. apply Hjs. by right.
Qed.

Lemma length_range n : length (range n) = Z.to_nat n.
Proof. unfold range. apply length_seq. Qed.

Lemma length_grant m allocation w i : length (grant m allocation w i) = Z.to_nat m.
Proof. unfold grant. by rewrite length_fmap, length_range. Qed.

Lemma lookup_total_grant m allocation w i j :
  j ∈ range m →
  grant m allocation w i !!! j = w !!! j + (allocation !!! i) !!! j.
Proof.
  intros Hj%elem_of_range. unfold grant, range.
  apply list_lookup_total_correct. rewrite list_lookup_fmap.
  rewrite lookup_seq_lt; [done|lia].
Qed.

Section detector.
Variables (n m : Z) (allocation request : list (list Z)) (available : list Z).
Hypothesis Hvalid : valid_state n m allocation request available.

Local Abbreviation visit' := (visit m allocation request).
Local Abbreviation for_each' := (for_each m allocation request).
Local Abbreviation fires' := (fires m allocation request).

Local Abbreviation shaped := (shaped n m).

Lemma valid_allocation : well_shaped n m allocation.
Proof. by apply valid_state_inv in Hvalid as (? & _). Qed.

Lemma valid_request : well_shaped n m request.
Proof. by apply valid_state_inv in Hvalid as (_ & ? & _). Qed.

Lemma valid_available : length available = Z.to_nat m.
Proof.
  apply valid_state_inv in Hvalid as (_ & _ & Hlen & _).
  unfold len in Hlen. lia.
Qed.

Lemma valid_row mat i :
  well_shaped n m mat → (i < Z.to_nat n)%nat →
  mat !! i = Some (mat !!! i) ∧ length (mat !!! i) = Z.to_nat m.
Proof.
  intros Hs Hi.
  destruct (well_shaped_lookup n m mat i Hs) as (row & Hrow & Hlen); [lia|].
  rewrite (list_lookup_total_correct _ _ _ Hrow).
  split; [done|]. unfold len in Hlen. lia.
Qed.

Lemma valid_allocation_entry i j : 0 ≤ (allocation !!! i) !!! j.
Proof.
  apply valid_state_inv in Hvalid as (_ & _ & _ & Hna & _).
  destruct (allocation !! i) as [row|] eqn:Hrow.
  - rewrite (list_lookup_total_correct _ _ _ Hrow).
    unfold non_negative in Hna. rewrite Forall_forall in Hna.
    specialize (Hna row (list_elem_of_lookup_2 _ _ _ Hrow)).
    destruct (row !! j) as [x|] eqn:Hx.
    + rewrite (list_lookup_total_correct _ _ _ Hx).
      rewrite Forall_forall in Hna. apply Hna.
      by eapply list_elem_of_lookup_2.
    + by rewrite list_lookup_total_alt, Hx.
  - by rewrite (list_lookup_total_alt allocation), Hrow.
Qed.

(** The body of the loop never raises on shaped variables; it leaves
    them as they are, or fires process [i] and sets [found]. *)
Lemma visit_total i s :
  (i < Z.to_nat n)%nat → shaped (work s) (finish s) →
  (visit' i s = Return s
     ∧ (finish s !! i = Some false → ¬ can_finish m request (work s) i))
  ∨ (∃ s', visit' i s = Return s' ∧ found s' = true
       ∧ work s' = grant m allocation (work s) i
       ∧ fires' (work s, finish s) (work s', finish s')).
Proof.
  intros Hi [Hf Hw]. unfold visit.
  rewrite (getitem_total (finish s) i) by lia. cbn.
  destruct (finish s !!! i) eqn:Hfi; cbn [negb].
  { left. split; [done|]. intros Hfalse.
    apply list_lookup_total_correct in Hfalse. congruence. }
  destruct (valid_row request i valid_request Hi) as [Hr Hlr].
  destruct (valid_row allocation i valid_allocation Hi) as [Ha Hla].
  destruct (all_request_le_total request (work s) i _ (range m) Hr)
    as [[-> Hall]|[-> (j & Hj & Hlt)]].
  { intros j Hj%elem_of_range. lia. }
  - right. cbn.
    rewrite (release_total allocation (work s) i _ (range m) Ha).
    2:{ intros j Hj%elem_of_range. lia. }
    cbn. unfold setitem. rewrite decide_True by lia. cbn.
    eexists. split; [done|]. split; [done|]. split; [done|]. cbn.
    apply (fires_intro m allocation request i (work s) (finish s)); [|done].
    rewrite <- Hfi. apply list_lookup_lookup_total_lt. lia.
  - left. split; [done|]. intros _ Hcan.
    specialize (Hcan j Hj). lia.
Qed.

(** *** Counting the unfinished processes *)

Lemma pending_insert (f : list bool) i :
  f !! i = Some false → pending f = S (pending (<[i:=true]> f)).
Proof.
  unfold pending. revert i. induction f as [|b f IH]; intros i Hi; [done|].
  destruct i as [|i]; cbn in Hi.
  - injection Hi as ->. cbn [insert list_insert].
    rewrite filter_cons_True by done. by rewrite filter_cons_False.
  - specialize (IH i Hi). cbn [insert list_insert]. destruct b.
    + by rewrite !filter_cons_False.
    + rewrite !filter_cons_True by done. cbn. by rewrite IH.
Qed.

Lemma pending_le (f : list bool) : (pending f ≤ length f)%nat.
Proof. apply length_filter. Qed.

Lemma fires_shaped x y : fires' x y → shaped x.1 x.2 → shaped y.1 y.2.
Proof.
  intros [i w f Hi Hcan] [Hf Hw]. cbn in *. split.
  - by rewrite length_insert.
  - apply length_grant.
Qed.

Lemma fires_pending x y : fires' x y → pending x.2 = S (pending y.2).
Proof. intros [i w f Hi Hcan]. by apply pending_insert. Qed.

(** *** One pass *)

(** A pass over processes of the system never raises.  Either nothing
    fired: the variables are as before and no visited process can finish;
    or something fired: [found] is set and fewer processes are
    unfinished. *)
Lemma for_each_total order : ∀ s,
  (∀ i, i ∈ order → (i < Z.to_nat n)%nat) →
  shaped (work s) (finish s) →
  ∃ s', for_each' order s = Return s'
    ∧ shaped (work s') (finish s')
    ∧ rtc fires' (work s, finish s) (work s', finish s')
    ∧ ((s' = s ∧ stuck m request order (work s) (finish s))
       ∨ (found s' = true ∧ (pending (finish s') < pending (finish s))%nat)).
Proof.
  induction order as [|i order IH]; intros s Horder Hs.
  - exists s. split; [done|]. split; [done|]. split; [done|].
    left. split; [done|]. intros i Hi. by apply elem_of_nil in Hi.
  - assert (∀ i', i' ∈ order → (i' < Z.to_nat n)%nat) as Horder'.
    { intros i' Hi'. apply Horder. by right. }
    cbn [for_each].
    destruct (visit_total i s) as [[-> Hno]|(s1 & -> & Hfound & _ & Hfire)];
      [apply Horder; by left|done|..]; cbn.
    + destruct (IH s Horder' Hs) as (s' & -> & Hs' & Hrtc & Hcase).
      exists s'. split; [done|]. split; [done|]. split; [done|].
      destruct Hcase as [[-> Hstuck]|Hdec]; [left|by right].
      split; [done|]. intros i' Hi'.
      apply elem_of_cons in Hi' as [->|Hi']; [done|by apply Hstuck].
    + pose proof (fires_shaped _ _ Hfire Hs) as Hs1.
      pose proof (fires_pending _ _ Hfire) as Hp1. cbn [fst snd] in Hs1, Hp1.
      destruct (IH s1 Horder' Hs1) as (s' & -> & Hs' & Hrtc & Hcase).
      exists s'. split; [done|]. split; [done|].
      split; [by eapply rtc_l|]. right.
      destruct Hcase as [[-> _]|[Hf' Hdec]]; [split; [done|lia]|].
      split; [done|lia].
Qed.

(** *** The loop *)

(** Once the fuel exceeds the number of unfinished processes the loop
    returns, with the same variables whatever the fuel; they were reached
    by firing processes, and no process of [order] can finish. *)
Lemma while_true_total order :
  (∀ i, i ∈ order → (i < Z.to_nat n)%nat) →
  ∀ c w f, (pending f ≤ c)%nat → shaped w f →
  ∃ w' f',
    (∀ fuel, (c < fuel)%nat →
       while_true fuel m allocation request order w f = Return (w', f'))
    ∧ shaped w' f'
    ∧ rtc fires' (w, f) (w', f')
    ∧ stuck m request order w' f'.
Proof.
  intros Horder c. induction c as [|c IH]; intros w f Hc Hs.
  - destruct (for_each_total order (Vars w f false) Horder Hs)
      as (s' & Hrun & Hs' & Hrtc & [[-> Hstuck]|[_ Hdec]]); cbn [work finish found] in *; [|lia].
    exists w, f. split; [|done].
    intros [|fuel] Hfuel; [lia|]. cbn [while_true]. by rewrite Hrun.
  - destruct (for_each_total order (Vars w f false) Horder Hs)
      as (s' & Hrun & Hs' & Hrtc & [[-> Hstuck]|[Hfound Hdec]]); cbn [work finish found] in *.
    + exists w, f. split; [|done].
      intros [|fuel] Hfuel; [lia|]. cbn [while_true]. by rewrite Hrun.
    + destruct (IH (work s') (finish s')) as (w' & f' & Hret & Hs'' & Hrtc' & Hstuck);
        [lia|done|].
      exists w', f'. split; [|split; [done|split; [by etrans|done]]].
      intros [|fuel] Hfuel; [lia|]. cbn [while_true]. rewrite Hrun. cbn.
      rewrite Hfound. apply Hret. lia.
Qed.

(** *** What [work] holds *)

Lemma released_replicate k rows j : released (replicate k false) rows j = 0.
Proof.
  revert rows. induction k as [|k IH]; intros [|row rows]; cbn; try done.
  by rewrite IH.
Qed.

Lemma released_insert f : ∀ rows i row j,
  f !! i = Some false → rows !! i = Some row →
  released (<[i:=true]> f) rows j = released f rows j + row !!! j.
Proof.
  induction f as [|b f IH]; intros rows i row j Hf Hrow; [done|].
  destruct rows as [|row0 rows]; [done|].
  destruct i as [|i]; cbn in Hf, Hrow.
  - simplify_eq. cbn. lia.
  - pose proof (IH rows i row j Hf Hrow) as IH'. simpl. simpl in IH'. lia.
Qed.

Lemma released_mono f : ∀ f' rows j,
  length f = length f' → below f f' →
  (∀ row, row ∈ rows → 0 ≤ row !!! j) →
  released f rows j ≤ released f' rows j.
Proof.
  induction f as [|b f IH]; intros [|b' f'] rows j Hlen Hsub Hpos;
    try done.
  destruct rows as [|row rows]; [done|]. cbn [released].
  assert (released f rows j ≤ released f' rows j) as Hrest.
  { apply IH.
    - cbn in Hlen. lia.
    - intros i Hi. apply (Hsub (S i) Hi).
    - intros row' Hrow'. apply Hpos. by right. }
  pose proof (Hpos row ltac:(by left)) as Hrow.
  destruct b.
  - specialize (Hsub 0%nat eq_refl). cbn in Hsub. simplify_eq. lia.
  - destruct b'; lia.
Qed.

Lemma allocation_row_pos j row : row ∈ allocation → 0 ≤ row !!! j.
Proof.
  intros [i Hi]%list_elem_of_lookup.
  rewrite <- (list_lookup_total_correct _ _ _ Hi).
  apply valid_allocation_entry.
Qed.

Local Abbreviation accounted := (accounted m allocation available).

Lemma init_shaped : shaped available (replicate (Z.to_nat n) false).
Proof. split; [apply length_replicate|apply valid_available]. Qed.

Lemma init_accounted : accounted available (replicate (Z.to_nat n) false).
Proof. intros j _. rewrite released_replicate. lia. Qed.

Lemma fires_accounted x y :
  fires' x y → shaped x.1 x.2 → accounted x.1 x.2 → accounted y.1 y.2.
Proof.
  intros [i w f Hi Hcan] [Hf Hw] Hacc j Hj. cbn in *.
  assert (i < Z.to_nat n)%nat as Hin.
  { rewrite <- Hf. by eapply lookup_lt_Some. }
  destruct (valid_row allocation i valid_allocation Hin) as [Ha _].
  rewrite (lookup_total_grant _ _ _ _ _ Hj), (Hacc j Hj).
  rewrite (released_insert f allocation i _ j Hi Ha). lia.
Qed.

Lemma rtc_fires_invariant x y :
  rtc fires' x y → shaped x.1 x.2 ∧ accounted x.1 x.2 →
  shaped y.1 y.2 ∧ accounted y.1 y.2.
Proof.
  induction 1 as [|x y z Hfire _ IH]; [done|]. intros [Hs Hacc].
  apply IH. split; [by eapply fires_shaped|by eapply fires_accounted].
Qed.

(** *** The fixed point does not depend on the order *)

(** Whatever was fired from the initial variables is finished in every
    accounted state in which no unfinished process can finish. *)
Lemma rtc_fires_below x w f :
  rtc fires' (available, replicate (Z.to_nat n) false) x →
  shaped w f → accounted w f → stuck m request (range n) w f →
  below x.2 f.
Proof.
  intros Hrtc [Hf Hw] Hacc Hstuck. revert x Hrtc.
  apply (rtc_ind_r (λ x, below x.2 f)).
  { intros i Hi. cbn in Hi. apply lookup_replicate in Hi as [? _]. done. }
  intros x y Hrtc Hfire IH.
  destruct (rtc_fires_invariant _ _ Hrtc) as [[Hxf Hxw] Hxacc];
    [split; [apply init_shaped|apply init_accounted]|].
  destruct Hfire as [i w0 f0 Hi Hcan]. cbn in *.
  intros i' Hi'. destruct (decide (i' = i)) as [->|Hne].
  2:{ rewrite list_lookup_insert_ne in Hi' by done. by apply IH. }
  assert (i < Z.to_nat n)%nat as Hin.
  { rewrite <- Hxf. by eapply lookup_lt_Some. }
  destruct (lookup_lt_is_Some_2 f i) as [b Hb]; [lia|].
  destruct b; [done|exfalso].
  apply (Hstuck i); [apply elem_of_range; lia|done|].
  intros j Hj. specialize (Hcan j Hj).
  rewrite (Hacc j Hj). rewrite (Hxacc j Hj) in Hcan.
  pose proof (released_mono f0 f allocation j ltac:(lia) IH
                (allocation_row_pos j)). lia.
Qed.

Lemma below_antisym (f f' : list bool) :
  length f = length f' → below f f' → below f' f → f = f'.
Proof.
  intros Hlen H1 H2. apply list_eq. intros i.
  destruct (f !! i) as [b|] eqn:Hb, (f' !! i) as [b'|] eqn:Hb'.
  - destruct b.
    + by rewrite (H1 i Hb) in Hb'.
    + destruct b'; [|done]. by rewrite (H2 i Hb') in Hb.
  - apply lookup_lt_Some in Hb. apply lookup_ge_None in Hb'. lia.
  - apply lookup_lt_Some in Hb'. apply lookup_ge_None in Hb. lia.
  - done.
Qed.

Lemma accounted_eq (w w' : list Z) f :
  length w = Z.to_nat m → length w' = Z.to_nat m →
  accounted w f → accounted w' f → w = w'.
Proof.
  intros Hw Hw' Hacc Hacc'.
  apply (list_eq_same_length _ _ (Z.to_nat m)); [done..|].
  intros j x y Hj Hx Hy.
  apply list_lookup_total_correct in Hx, Hy. subst.
  rewrite Hacc, Hacc'; [done|apply elem_of_range; lia..].
Qed.

(** Two runs of the loop, each over an order that visits every process,
    end with the same variables. *)
Lemma while_true_order_independent order order' :
  order ≡ₚ range n → order' ≡ₚ range n →
  ∃ w f, shaped w f
    ∧ stuck m request (range n) w f
    ∧ rtc fires' (available, replicate (Z.to_nat n) false) (w, f)
    ∧ (∀ fuel, (Z.to_nat n < fuel)%nat →
         while_true fuel m allocation request order available
           (replicate (Z.to_nat n) false) = Return (w, f))
    ∧ (∀ fuel, (Z.to_nat n < fuel)%nat →
         while_true fuel m allocation request order' available
           (replicate (Z.to_nat n) false) = Return (w, f)).
Proof.
  intros Hp Hp'.
  assert (∀ o, o ≡ₚ range n → ∀ i, i ∈ o → (i < Z.to_nat n)%nat) as Hlt.
  { intros o Ho i Hi. rewrite Ho in Hi. apply elem_of_range in Hi. lia. }
  assert (pending (replicate (Z.to_nat n) false) ≤ Z.to_nat n)%nat as Hpend.
  { etrans; [apply pending_le|]. by rewrite length_replicate. }
  destruct (while_true_total order (Hlt _ Hp) _ _ _ Hpend init_shaped)
    as (w & f & Hret & Hs & Hrtc & Hstuck).
  destruct (while_true_total order' (Hlt _ Hp') _ _ _ Hpend init_shaped)
    as (w' & f' & Hret' & Hs' & Hrtc' & Hstuck').
  assert (stuck m request (range n) w f) as Hst.
  { intros i Hi. apply Hstuck. by rewrite Hp. }
  assert (stuck m request (range n) w' f') as Hst'.
  { intros i Hi. apply Hstuck'. by rewrite Hp'. }
  destruct (rtc_fires_invariant _ _ Hrtc) as [_ Hacc];
    [split; [apply init_shaped|apply init_accounted]|].
  destruct (rtc_fires_invariant _ _ Hrtc') as [_ Hacc'];
    [split; [apply init_shaped|apply init_accounted]|].
  cbn in Hacc, Hacc'.
  assert (f = f') as <-.
  { apply below_antisym.
    - destruct Hs as [Hf _], Hs' as [Hf' _]. lia.
    - by apply (rtc_fires_below _ w' f' Hrtc).
    - by apply (rtc_fires_below _ w f Hrtc'). }
  assert (w = w') as <-.
  { destruct Hs as [_ Hw], Hs' as [_ Hw']. by eapply accounted_eq. }
  exists w, f. done.
Qed.

(** *** The report *)

Lemma unfinished_total (f : list bool) ids :
  (∀ i, i ∈ ids → (i < length f)%nat) →
  ∃ l, unfinished f ids = Return l
    ∧ (∀ i, i ∈ l ↔ i ∈ ids ∧ f !! i = Some false)
    ∧ l `sublist_of` ids.
Proof.
  induction ids as [|i ids IH]; intros Hids.
  - exists []. split; [done|]. split; [|done]. intros i.
    rewrite elem_of_nil. tauto.
  - destruct IH as (l & Hl & Hmem & Hsub).
    { intros i' Hi'. apply Hids. by right. }
    destruct (getitem_lt f i) as (b & Hb & Hget); [apply Hids; by left|].
    cbn [unfinished]. rewrite Hget. cbn. rewrite Hl. cbn.
    destruct b.
    + exists l. split; [done|]. split; [|by apply sublist_cons].
      intros i'. rewrite Hmem, elem_of_cons. split; [tauto|].
      intros [[->|Hi'] Hf]; [congruence|tauto].
    + exists (i :: l). split; [done|]. split; [|by apply sublist_skip].
      intros i'. rewrite !elem_of_cons, Hmem. split; [|tauto].
      intros [->|[? ?]]; tauto.
Qed.

(** The detector returns on every valid state: the loop ends at variables
    [w], [f] in which no unfinished process can finish, and the report is
    that of the processes unfinished in [f], in ascending order. *)
Lemma detect_deadlock_in_total order :
  order ≡ₚ range n →
  ∃ w f deadlocked,
    shaped w f
    ∧ stuck m request (range n) w f
    ∧ (∀ i, i ∈ deadlocked ↔ i ∈ range n ∧ f !! i = Some false)
    ∧ deadlocked `sublist_of` range n
    ∧ (∀ fuel, (Z.to_nat n < fuel)%nat →
         while_true fuel m allocation request order available
           (replicate (Z.to_nat n) false) = Return (w, f))
    ∧ (∀ fuel, (Z.to_nat n < fuel)%nat →
         while_true fuel m allocation request (range n) available
           (replicate (Z.to_nat n) false) = Return (w, f))
    ∧ (∀ fuel, (Z.to_nat n < fuel)%nat →
         detect_deadlock_in order fuel n m allocation request available
         = Return (report deadlocked))
    ∧ (∀ fuel, (Z.to_nat n < fuel)%nat →
         detect_deadlock fuel n m allocation request available
         = Return (report deadlocked)).
Proof.
  intros Hp.
  destruct (while_true_order_independent order (range n) Hp ltac:(done))
    as (w & f & Hs & Hstuck & _ & Hret & Hret').
  destruct (unfinished_total f (range n)) as (l & Hl & Hmem & Hsub).
  { intros i Hi%elem_of_range. destruct Hs as [-> _]. lia. }
  exists w, f, l. repeat (split; [done|]).
  split; intros fuel Hfuel; unfold detect_deadlock, detect_deadlock_in.
  - rewrite (Hret fuel Hfuel). cbn. by rewrite Hl.
  - rewrite (Hret' fuel Hfuel). cbn. by rewrite Hl.
Qed.

(** *** [work] along the run *)

Lemma fires_work_le x y :
  fires' x y → shaped x.1 x.2 → Forall2 Z.le x.1 y.1.
Proof.
  intros [i w f Hi Hcan] [Hf Hw]. cbn in *.
  apply Forall2_same_length_lookup_2; [by rewrite length_grant|].
  intros j a b Ha Hb.
  assert (j ∈ range m) as Hj.
  { apply elem_of_range. apply lookup_lt_Some in Ha. lia. }
  apply list_lookup_total_correct in Ha, Hb. subst.
  rewrite (lookup_total_grant _ _ _ _ _ Hj).
  pose proof (valid_allocation_entry i j). lia.
Qed.

Lemma work_le_refl (w : list Z) : Forall2 Z.le w w.
Proof. apply Forall_Forall2_diag, Forall_forall. intros. lia. Qed.

Lemma work_le_trans (w1 w2 w3 : list Z) :
  Forall2 Z.le w1 w2 → Forall2 Z.le w2 w3 → Forall2 Z.le w1 w3.
Proof. apply Forall2_trans. intros. lia. Qed.

Lemma rtc_fires_work_le x y :
  rtc fires' x y → shaped x.1 x.2 → Forall2 Z.le x.1 y.1.
Proof.
  induction 1 as [|x y z Hfire _ IH]; intros Hs; [apply work_le_refl|].
  eapply work_le_trans; [by eapply fires_work_le|].
  apply IH. by eapply fires_shaped.
Qed.

(** A visit that returns was a visit of a process of the system. *)
Lemma visit_Return_lt i s s' :
  shaped (work s) (finish s) → visit' i s = Return s' →
  (i < Z.to_nat n)%nat.
Proof.
  intros [Hf _] Hvisit. destruct (decide (i < Z.to_nat n)%nat); [done|].
  unfold visit, getitem in Hvisit.
  rewrite lookup_ge_None_2 in Hvisit by lia. done.
Qed.

Lemma visit_step i s s' :
  shaped (work s) (finish s) → visit' i s = Return s' →
  shaped (work s') (finish s')
  ∧ (s' = s
     ∨ (work s' = grant m allocation (work s) i
        ∧ fires' (work s, finish s) (work s', finish s'))).
Proof.
  intros Hs Hvisit. pose proof (visit_Return_lt i s s' Hs Hvisit) as Hi.
  destruct (visit_total i s Hi Hs)
    as [[Hsame _]|(s1 & Hs1 & _ & Hgrant & Hfire)].
  - rewrite Hsame in Hvisit. injection Hvisit as <-. auto.
  - rewrite Hs1 in Hvisit. injection Hvisit as <-.
    split; [by apply (fires_shaped _ _ Hfire)|by right].
Qed.

Lemma for_each_steps visits : ∀ s s',
  shaped (work s) (finish s) → for_each' visits s = Return s' →
  shaped (work s') (finish s')
  ∧ rtc fires' (work s, finish s) (work s', finish s').
Proof.
  induction visits as [|i visits IH]; intros s s' Hs Hrun.
  - injection Hrun as <-. done.
  - cbn [for_each] in Hrun.
    destruct (visit' i s) as [s1| |] eqn:Hvisit; [|done..]. cbn in Hrun.
    destruct (visit_step i s s1 Hs Hvisit) as [Hs1 Hstep].
    destruct (IH s1 s' Hs1 Hrun) as [Hs' Hrtc]. split; [done|].
    destruct Hstep as [->|[_ Hfire]]; [done|by eapply rtc_l].
Qed.

Lemma while_true_steps order fuel : ∀ w f w' f',
  shaped w f →
  while_true fuel m allocation request order w f = Return (w', f') →
  rtc fires' (w, f) (w', f').
Proof.
  induction fuel as [|fuel IH]; intros w f w' f' Hs Hrun; [done|].
  cbn [while_true] in Hrun.
  destruct (for_each' order (Vars w f false)) as [s| |] eqn:Hpass; [|done..].
  destruct (for_each_steps order (Vars w f false) s Hs Hpass) as [Hs' Hrtc].
  cbn in Hrun, Hrtc. destruct (found s).
  - etrans; [done|]. by apply IH.
  - by injection Hrun as <- <-.
Qed.
End detector.

(** ** The detector: the properties of the specification *)

(** C1.  On a valid state, the fixed-point loop run with the processes
    visited in any permutation of the index order ends with the same [work]
    and the same [finish] flags as the loop of [detect_deadlock], which
    visits them in index order; the deadlocked processes, and the whole
    result, are therefore the same. *)
Theorem detect_deadlock_order_independent
    n m allocation request available order fuel fuel' :
  valid_state n m allocation request available →
  order ≡ₚ range n →
  (Z.to_nat n < fuel)%nat → (Z.to_nat n < fuel')%nat →
  ∃ w f deadlocked,
    while_true fuel m allocation request order available
      (replicate (Z.to_nat n) false) = Return (w, f)
    ∧ while_true fuel' m allocation request (range n) available
        (replicate (Z.to_nat n) false) = Return (w, f)
    ∧ (∀ i, i ∈ deadlocked ↔ i ∈ range n ∧ f !! i = Some false)
    ∧ detect_deadlock_in order fuel n m allocation request available
      = Return (report deadlocked)
    ∧ detect_deadlock fuel' n m allocation request available
      = Return (report deadlocked).
Proof.
  intros Hvalid Hp Hfuel Hfuel'.
  destruct (detect_deadlock_in_total n m allocation request available
              Hvalid order Hp)
    as (w & f & deadlocked & _ & _ & Hmem & _ & Hret & Hret' & Hdet & Hdet').
  exists w, f, deadlocked. auto 10.
Qed.

Lemma detect_deadlock_order_independent_witness :
  valid_state 3 1 [[1]; [0]; [2]] [[1]; [0]; [4]] [0]
  ∧ [2; 0; 1]%nat ≡ₚ range 3
  ∧ ∃ w f deadlocked,
      while_true 4 1 [[1]; [0]; [2]] [[1]; [0]; [4]] [2; 0; 1]%nat [0]
        (replicate 3 false) = Return (w, f)
      ∧ while_true 4 1 [[1]; [0]; [2]] [[1]; [0]; [4]] (range 3) [0]
          (replicate 3 false) = Return (w, f)
      ∧ detect_deadlock_in [2; 0; 1]%nat 4 3 1 [[1]; [0]; [2]] [[1]; [0]; [4]] [0]
        = Return (report deadlocked)
      ∧ detect_deadlock 4 3 1 [[1]; [0]; [2]] [[1]; [0]; [4]] [0]
        = Return (report deadlocked).
Proof.
  assert ([2; 0; 1]%nat ≡ₚ range 3) as Hp.
  { change (range 3) with [0; 1; 2]%nat.
    etrans; [apply Permutation_swap|]. constructor. apply Permutation_swap. }
  split; [reflexivity|]. split; [exact Hp|].
  destruct (detect_deadlock_order_independent 3 1 [[1]; [0]; [2]]
              [[1]; [0]; [4]] [0] [2; 0; 1]%nat 4 4 eq_refl Hp)
    as (w & f & deadlocked & H1 & H2 & _ & H3 & H4).
  - vm_compute. lia.
  - vm_compute. lia.
  - exists w, f, deadlocked. auto.
Defined.

(** C3.  On a valid state without processes or without resource classes,
    [detect_deadlock] reports no deadlock and an empty list. *)
Theorem detect_deadlock_trivial_state n m allocation request available fuel :
  valid_state n m allocation request available →
  n = 0 ∨ m = 0 →
  (Z.to_nat n < fuel)%nat →
  detect_deadlock fuel n m allocation request available
  = Return (false, [], "No deadlock detected.").
Proof.
  intros Hvalid Hzero Hfuel.
  destruct (detect_deadlock_in_total n m allocation request available
              Hvalid (range n) ltac:(done))
    as (w & f & deadlocked & _ & Hstuck & Hmem & _ & _ & _ & _ & Hdet).
  rewrite (Hdet fuel Hfuel). destruct deadlocked as [|i l]; [done|exfalso].
  destruct (proj1 (Hmem i) ltac:(by left)) as [Hi Hf].
  destruct Hzero as [->| ->].
  - by apply elem_of_nil in Hi.
  - apply (Hstuck i Hi Hf). intros j Hj. by apply elem_of_nil in Hj.
Qed.

Lemma detect_deadlock_trivial_state_witness :
  valid_state 2 0 [[]; []] [[]; []] [] ∧ (2 = 0 ∨ 0 = 0) ∧ (Z.to_nat 2 < 3)%nat
  ∧ detect_deadlock 3 2 0 [[]; []] [[]; []] []
    = Return (false, [], "No deadlock detected.").
Proof.
  assert (Z.to_nat 2 < 3)%nat as Hfuel by (vm_compute; lia).
  split; [reflexivity|]. split; [by right|]. split; [exact Hfuel|].
  apply (detect_deadlock_trivial_state 2 0 [[]; []] [[]; []] [] 3 eq_refl);
    [by right|exact Hfuel].
Defined.

(** C6.  On a valid state the loop of [detect_deadlock] ends at flags
    [finish] with which no unfinished process can finish, and the list
    [deadlocked] of line 87 holds, in index order, exactly the processes
    whose flag is still false.  [detect_deadlock] returns that list with
    [isDeadlock = True] exactly when it is not empty, and the message is
    then "Deadlock detected in processes: " followed by the list, written
    as Python writes a list, and a full stop; when the list is empty it
    returns [False], the empty list and "No deadlock detected.". *)
Theorem detect_deadlock_report n m allocation request available fuel :
  valid_state n m allocation request available →
  (Z.to_nat n < fuel)%nat →
  ∃ w f deadlocked,
    while_true fuel m allocation request (range n) available
      (replicate (Z.to_nat n) false) = Return (w, f)
    ∧ stuck m request (range n) w f
    ∧ unfinished f (range n) = Return deadlocked
    ∧ (∀ i, i ∈ deadlocked ↔ Z.of_nat i < n ∧ f !! i = Some false)
    ∧ deadlocked `sublist_of` range n
    ∧ (∃ is_deadlock message,
         detect_deadlock fuel n m allocation request available
         = Return (is_deadlock, deadlocked, message)
         ∧ (is_deadlock = true ↔ deadlocked ≠ [])
         ∧ (deadlocked ≠ [] →
            message
            = "Deadlock detected in processes: " +:+ str_list deadlocked
                +:+ ".")
         ∧ (deadlocked = [] →
            is_deadlock = false ∧ message = "No deadlock detected."))
    ∧ str_list [] = "[]"
    ∧ str_list [0; 1; 2]%nat = "[0, 1, 2]".
Proof.
  intros Hvalid Hfuel.
  destruct (while_true_order_independent n m allocation request available
              Hvalid (range n) (range n) ltac:(done) ltac:(done))
    as (w & f & Hs & Hstuck & _ & Hret & _).
  destruct (unfinished_total f (range n)) as (deadlocked & Hl & Hmem & Hsub).
  { intros i Hi%elem_of_range. destruct Hs as [-> _]. lia. }
  exists w, f, deadlocked.
  split; [by apply Hret|]. split; [done|]. split; [done|].
  split; [intros i; by rewrite Hmem, elem_of_range|]. split; [done|].
  split; [|done].
  assert (detect_deadlock fuel n m allocation request available
          = Return (report deadlocked)) as ->.
  { unfold detect_deadlock, detect_deadlock_in.
    rewrite (Hret fuel Hfuel). cbn. by rewrite Hl. }
  destruct deadlocked as [|i l]; cbn [report].
  - by exists false, msg_no_deadlock.
  - by exists true, (msg_deadlock (i :: l)).
Qed.

Lemma detect_deadlock_report_witness :
  valid_state 3 1 [[1]; [0]; [1]] [[1]; [0]; [1]] [0] ∧ (Z.to_nat 3 < 4)%nat
  ∧ ∃ w f deadlocked,
      while_true 4 1 [[1]; [0]; [1]] [[1]; [0]; [1]] (range 3) [0]
        (replicate (Z.to_nat 3) false) = Return (w, f)
      ∧ unfinished f (range 3) = Return deadlocked
      ∧ (∀ i, i ∈ deadlocked ↔ Z.of_nat i < 3 ∧ f !! i = Some false)
      ∧ ∃ is_deadlock message,
          detect_deadlock 4 3 1 [[1]; [0]; [1]] [[1]; [0]; [1]] [0]
          = Return (is_deadlock, deadlocked, message)
          ∧ (is_deadlock = true ↔ deadlocked ≠ []).
Proof.
  assert (Z.to_nat 3 < 4)%nat as Hfuel by (vm_compute; lia).
  split; [reflexivity|]. split; [exact Hfuel|].
  destruct (detect_deadlock_report 3 1 [[1]; [0]; [1]] [[1]; [0]; [1]] [0] 4
              eq_refl Hfuel)
    as (w & f & l & Hloop & _ & Hun & Hmem & _ & (b & msg & Hres & Hiff & _)
        & _).
  exists w, f, l. split; [exact Hloop|]. split; [exact Hun|].
  split; [exact Hmem|]. exists b, msg. split; [exact Hres|exact Hiff].
Defined.

(** C7.  On a valid state [work] never decreases.  The loop starts from
    shaped variables with [work] a copy of [available]; a visit of process
    [i] keeps the variables shaped and either leaves [work] as it is or
    replaces each [work[j]] by [work[j] + allocation[i][j]], where
    [allocation[i][j] >= 0]; so [work] is element-wise non-decreasing over
    every visit, over every sequence of visits, and from [available] to the
    fixed point. *)
Theorem work_non_decreasing n m allocation request available :
  valid_state n m allocation request available →
  shaped n m (work (init_vars n available)) (finish (init_vars n available))
  ∧ work (init_vars n available) = available
  ∧ (∀ i s s',
       shaped n m (work s) (finish s) →
       visit m allocation request i s = Return s' →
       shaped n m (work s') (finish s')
       ∧ Forall2 Z.le (work s) (work s')
       ∧ (work s' = work s
          ∨ (length (work s') = length (work s)
             ∧ ∀ j, j ∈ range m →
                 work s' !!! j = work s !!! j + (allocation !!! i) !!! j
                 ∧ 0 ≤ (allocation !!! i) !!! j)))
  ∧ (∀ visits s s',
       shaped n m (work s) (finish s) →
       for_each m allocation request visits s = Return s' →
       Forall2 Z.le (work s) (work s'))
  ∧ (∀ order fuel w f,
       while_true fuel m allocation request order available
         (replicate (Z.to_nat n) false) = Return (w, f) →
       Forall2 Z.le available w).
Proof.
  intros Hvalid.
  pose proof (init_shaped n m allocation request available Hvalid) as Hinit.
  split; [done|]. split; [done|]. split; [|split].
  - intros i s s' Hs Hvisit.
    destruct (visit_step n m allocation request available Hvalid i s s' Hs Hvisit)
      as [Hs' Hstep].
    split; [done|]. destruct Hstep as [->|[Hgrant Hfire]].
    + split; [apply work_le_refl|by left].
    + split.
      { by apply (fires_work_le n m allocation request available Hvalid _ _ Hfire). }
      right. split; [destruct Hs as [_ ->], Hs' as [_ ->]; done|].
      intros j Hj. rewrite Hgrant. split; [by apply lookup_total_grant|].
      by eapply valid_allocation_entry.
  - intros visits s s' Hs Hrun.
    destruct (for_each_steps n m allocation request available Hvalid
                visits s s' Hs Hrun) as [_ Hrtc].
    by apply (rtc_fires_work_le n m allocation request available Hvalid _ _ Hrtc).
  - intros order fuel w f Hrun.
    pose proof (while_true_steps n m allocation request available Hvalid
                  order fuel _ _ _ _ Hinit Hrun) as Hrtc.
    by apply (rtc_fires_work_le n m allocation request available Hvalid _ _ Hrtc).
Qed.

Lemma work_non_decreasing_witness :
  valid_state 2 2 [[1; 0]; [0; 3]] [[0; 1]; [0; 0]] [0; 0]
  ∧ ∀ order fuel w f,
      while_true fuel 2 [[1; 0]; [0; 3]] [[0; 1]; [0; 0]] order [0; 0]
        (replicate (Z.to_nat 2) false) = Return (w, f) →
      Forall2 Z.le [0; 0] w.
Proof.
  split; [reflexivity|].
  exact (proj2 (proj2 (proj2 (proj2
    (work_non_decreasing 2 2 [[1; 0]; [0; 3]] [[0; 1]; [0; 0]] [0; 0] eq_refl))))).
Defined.

(** C9.  On a valid state the loop of [detect_deadlock] terminates.  A full
    pass over shaped variables returns, and either it marks no process (it
    is the last: [found] is false and the variables are unchanged) or the
    number of unfinished processes has decreased.  So the loop, and the
    call, return within [n + 1] passes: any fuel above [n] gives the same
    result, never [OutOfFuel] and never an exception. *)
Theorem detect_deadlock_terminates n m allocation request available :
  valid_state n m allocation request available →
  (∀ w f, shaped n m w f →
     ∃ s', for_each m allocation request (range n) (Vars w f false) = Return s'
       ∧ shaped n m (work s') (finish s')
       ∧ ((found s' = false ∧ work s' = w ∧ finish s' = f)
          ∨ (found s' = true ∧ (pending (finish s') < pending f)%nat)))
  ∧ (pending (replicate (Z.to_nat n) false) ≤ Z.to_nat n)%nat
  ∧ (∃ w f, ∀ fuel, (Z.to_nat n < fuel)%nat →
       while_true fuel m allocation request (range n) available
         (replicate (Z.to_nat n) false) = Return (w, f))
  ∧ (∃ result, ∀ fuel, (Z.to_nat n < fuel)%nat →
       detect_deadlock fuel n m allocation request available = Return result).
Proof.
  intros Hvalid. split; [|split; [|split]].
  - intros w f Hs.
    destruct (for_each_total n m allocation request available Hvalid (range n)
                (Vars w f false))
      as (s' & Hrun & Hs' & _ & Hcase); [|done|].
    { intros i Hi%elem_of_range. lia. }
    exists s'. split; [done|]. split; [done|].
    destruct Hcase as [[-> _]|Hdec]; [by left|by right].
  - etrans; [apply pending_le|]. by rewrite length_replicate.
  - destruct (detect_deadlock_in_total n m allocation request available
                Hvalid (range n) ltac:(done))
      as (w & f & _ & _ & _ & _ & _ & Hret & _).
    by exists w, f.
  - destruct (detect_deadlock_in_total n m allocation request available
                Hvalid (range n) ltac:(done))
      as (w & f & deadlocked & _ & _ & _ & _ & _ & _ & _ & Hdet).
    by exists (report deadlocked).
Qed.

Lemma detect_deadlock_terminates_witness :
  valid_state 3 1 [[1]; [1]; [1]] [[1]; [1]; [1]] [0]
  ∧ ∃ result, ∀ fuel, (Z.to_nat 3 < fuel)%nat →
      detect_deadlock fuel 3 1 [[1]; [1]; [1]] [[1]; [1]; [1]] [0]
      = Return result.
Proof.
  split; [reflexivity|].
  exact (proj2 (proj2 (proj2
    (detect_deadlock_terminates 3 1 [[1]; [1]; [1]] [[1]; [1]; [1]] [0]
       eq_refl)))).
Defined.

(** ** The detector on the store: what a call leaves behind *)

(** Case analysis on the first step of a sequence of two. *)
Ltac prog_bind p h :=
  unfold mbind, Store.prog_bind;
  let o := fresh "o" in
  let h' := fresh "h" in
  let E := fresh "Estep" in
  destruct (p h) as [o h'] eqn:E; destruct o; cbn [snd fst].

Lemma store_ints_at l h : (Store.ints_at l h).2 = h.
Proof. unfold Store.ints_at. by repeat case_match. Qed.

Lemma store_bools_at l h : (Store.bools_at l h).2 = h.
Proof. unfold Store.bools_at. by repeat case_match. Qed.

Lemma store_rows_at l h : (Store.rows_at l h).2 = h.
Proof. unfold Store.rows_at. by repeat case_match. Qed.

(** Two steps that leave the store as it is do so in sequence. *)
Lemma store_bind_read {A B} (p : Store.prog A) (f : A → Store.prog B) h :
  (p h).2 = h → (∀ a, (f a h).2 = h) → ((p ≫= f) h).2 = h.
Proof.
  intros Hp Hf. unfold mbind, Store.prog_bind.
  destruct (p h) as [[a|e|] h'] eqn:Estep; cbn in Hp; subst; [apply Hf|done..].
Qed.

Lemma store_entry mat i j h : (Store.entry mat i j h).2 = h.
Proof.
  unfold Store.entry.
  apply store_bind_read; [apply store_rows_at|intros ls].
  apply store_bind_read; [done|intros l].
  apply store_bind_read; [apply store_ints_at|done].
Qed.

Lemma store_item vec j h : (Store.item vec j h).2 = h.
Proof.
  unfold Store.item. apply store_bind_read; [apply store_ints_at|done].
Qed.

Lemma store_all_request_le request w i js h :
  (Store.all_request_le request w i js h).2 = h.
Proof.
  induction js as [|j js IH]; [done|]. cbn [Store.all_request_le].
  apply store_bind_read; [apply store_entry|intros r].
  apply store_bind_read; [apply store_item|intros x].
  by destruct (r <=? x).
Qed.

Lemma store_release allocation w i js h :
  (Store.release allocation w i js h).2 = h.
Proof.
  induction js as [|j js IH]; [done|]. cbn [Store.release].
  apply store_bind_read; [apply store_item|intros x].
  apply store_bind_read; [apply store_entry|intros a].
  apply store_bind_read; [apply IH|done].
Qed.

Lemma prefix_insert_ge {A} (h0 h : list A) l x :
  h0 `prefix_of` h → (length h0 ≤ l)%nat → h0 `prefix_of` <[l:=x]> h.
Proof.
  intros [k ->] Hl. rewrite insert_app_r_alt by done. by eexists.
Qed.

Lemma store_set_bool_frame h0 finish i b h :
  h0 `prefix_of` h → (length h0 ≤ finish)%nat →
  h0 `prefix_of` (Store.set_bool finish i b h).2.
Proof.
  intros Hpre Hl. unfold Store.set_bool.
  repeat case_match; cbn; try done. by apply prefix_insert_ge.
Qed.

(** A visit changes no object older than [finish]. *)
Lemma store_visit_frame h0 m allocation request finish i s h :
  h0 `prefix_of` h → (length h0 ≤ finish)%nat →
  h0 `prefix_of` (Store.visit m allocation request finish i s h).2.
Proof.
  intros Hpre Hl. unfold Store.visit.
  prog_bind (Store.bools_at finish) h;
    pose proof (store_bools_at finish h) as Hsame; rewrite Estep in Hsame;
    cbn in Hsame; subst; [|done..].
  destruct (getitem a i) as [f| |]; cbn; [|done..].
  destruct f; cbn [negb]; [done|].
  prog_bind (Store.all_request_le request s.1 i (range m)) h;
    pose proof (store_all_request_le request s.1 i (range m) h) as Hsame;
    rewrite Estep0 in Hsame; cbn in Hsame; subst; [|done..].
  destruct a0; [|done].
  prog_bind (Store.release allocation s.1 i (range m)) h;
    pose proof (store_release allocation s.1 i (range m) h) as Hsame;
    rewrite Estep1 in Hsame; cbn in Hsame; subst; [|done..].
  unfold Store.alloc. cbn.
  pose proof (store_set_bool_frame h0 finish i true (h ++ [Store.Ints a0])
                ltac:(by apply prefix_app_r) Hl) as Hset.
  destruct (Store.set_bool finish i true (h ++ [Store.Ints a0]))
    as [[[]|e|] h']; done.
Qed.

Lemma store_for_each_frame h0 m allocation request finish order : ∀ s h,
  h0 `prefix_of` h → (length h0 ≤ finish)%nat →
  h0 `prefix_of` (Store.for_each m allocation request finish order s h).2.
Proof.
  induction order as [|i order IH]; intros s h Hpre Hl; [done|].
  cbn [Store.for_each].
  pose proof (store_visit_frame h0 m allocation request finish i s h Hpre Hl)
    as Hvisit.
  prog_bind (Store.visit m allocation request finish i s) h; [|done..].
  by apply IH.
Qed.

Lemma store_while_true_frame h0 m allocation request finish order fuel :
  ∀ w h,
  h0 `prefix_of` h → (length h0 ≤ finish)%nat →
  h0 `prefix_of`
    (Store.while_true fuel m allocation request finish order w h).2.
Proof.
  induction fuel as [|fuel IH]; intros w h Hpre Hl; [done|].
  cbn [Store.while_true].
  pose proof (store_for_each_frame h0 m allocation request finish order
                (w, false) h Hpre Hl) as Hpass.
  prog_bind (Store.for_each m allocation request finish order (w, false)) h;
    [|done..].
  destruct a as [w' found']. destruct found'; [by apply IH|done].
Qed.

Lemma store_holds_matrix_prefix h h' mat rows :
  h `prefix_of` h' → Store.holds_matrix h mat rows →
  Store.holds_matrix h' mat rows.
Proof.
  intros Hpre (ls & Hmat & Hrows). exists ls.
  split; [by eapply prefix_lookup_Some|].
  eapply Forall2_impl; [exact Hrows|]. cbn. intros l row Hl.
  by eapply prefix_lookup_Some.
Qed.

(** C8.  A call of [detect_deadlock] changes no object of its caller: in the
    store after the call, whether it returned or raised, every object that
    existed before the call has its contents of before.  In particular the
    allocation matrix and its rows, the request matrix and its rows and the
    available vector are as they were; the call has worked on objects of
    its own ([work], [finish]). *)
Theorem detect_deadlock_frame fuel n m allocation request available h :
  let h' := (Store.detect_deadlock fuel n m allocation request available h).2 in
  h `prefix_of` h'
  ∧ (∀ l o, h !! l = Some o → h' !! l = Some o)
  ∧ (∀ rows, Store.holds_matrix h allocation rows →
             Store.holds_matrix h' allocation rows)
  ∧ (∀ rows, Store.holds_matrix h request rows →
             Store.holds_matrix h' request rows)
  ∧ (∀ zs, Store.holds_vector h available zs →
           Store.holds_vector h' available zs).
Proof.
  assert (h `prefix_of`
            (Store.detect_deadlock fuel n m allocation request available h).2)
    as Hpre.
  { unfold Store.detect_deadlock.
    prog_bind (Store.ints_at available) h;
      pose proof (store_ints_at available h) as Hsame; rewrite Estep in Hsame;
      cbn in Hsame; subst; [|done..].
    unfold Store.alloc at 1 2. cbn.
    pose proof (store_while_true_frame h m allocation request
                  (length (h ++ [Store.Ints a])) (range n) fuel (length h)
                  ((h ++ [Store.Ints a])
                     ++ [Store.Bools (replicate (Z.to_nat n) false)])) as Hloop.
    destruct (Store.while_true fuel m allocation request
                (length (h ++ [Store.Ints a])) (range n) (length h) _)
      as [[w|e|] h1]; cbn [snd] in Hloop |- *.
    - assert (h `prefix_of` h1) as Hh1.
      { apply Hloop; [|rewrite length_app; lia].
        by apply prefix_app_r, prefix_app_r. }
      prog_bind (Store.bools_at (length (h ++ [Store.Ints a]))) h1;
        pose proof (store_bools_at (length (h ++ [Store.Ints a])) h1) as Hsame;
        rewrite Estep0 in Hsame; cbn in Hsame; subst; [|done..].
      unfold Store.lift. by destruct (unfinished _ _).
    - apply Hloop; [|rewrite length_app; lia].
      by apply prefix_app_r, prefix_app_r.
    - apply Hloop; [|rewrite length_app; lia].
      by apply prefix_app_r, prefix_app_r. }
  cbn zeta. split; [done|]. split; [|split; [|split]].
  - intros l o Hl. by eapply prefix_lookup_Some.
  - intros rows. by apply store_holds_matrix_prefix.
  - intros rows. by apply store_holds_matrix_prefix.
  - intros zs Hzs. by eapply prefix_lookup_Some.
Qed.

Lemma detect_deadlock_frame_witness :
  let h := [Store.Ints [1; 0]; Store.Ints [0; 1]; Store.Rows [0; 1]%nat;
            Store.Ints [0; 1]; Store.Ints [1; 0]; Store.Rows [3; 4]%nat;
            Store.Ints [0; 0]] in
  Store.holds_matrix h 2%nat [[1; 0]; [0; 1]]
  ∧ Store.holds_matrix (Store.detect_deadlock 3 2 2 2%nat 5%nat 6%nat h).2
      2%nat [[1; 0]; [0; 1]].
Proof.
  intros h.
  assert (Store.holds_matrix h 2%nat [[1; 0]; [0; 1]]) as Hmat.
  { exists [0; 1]%nat. split; [reflexivity|]. repeat constructor. }
  split; [exact Hmat|].
  exact (proj1 (proj2 (proj2 (detect_deadlock_frame 3 2 2 2%nat 5%nat 6%nat h)))
           _ Hmat).
Defined.

(** ** The detector on the store computes what the list model computes *)

Lemma store_bind_Return {A B} (p : Store.prog A) (f : A → Store.prog B) h a h' :
  p h = (Return a, h') → (p ≫= f) h = f a h'.
Proof. intros Hp. unfold mbind, Store.prog_bind. by rewrite Hp. Qed.

Lemma store_bind_lift {A B} (o : outcome A) (f : A → Store.prog B) h :
  (Store.lift o ≫= f) h
  = match o with
    | Return a => f a h
    | Raise e => (Raise e, h)
    | OutOfFuel => (OutOfFuel, h)
    end.
Proof. unfold mbind, Store.prog_bind, Store.lift. by destruct o. Qed.

Lemma store_entry_refines h mat rows i j :
  Store.holds_matrix h mat rows →
  Store.entry mat i j h = (row ← getitem rows i; getitem row j, h).
Proof.
  intros (ls & Hmat & Hrows). unfold Store.entry.
  rewrite (store_bind_Return _ _ h ls h)
    by (unfold Store.rows_at; by rewrite Hmat).
  rewrite store_bind_lift.
  destruct (ls !! i) as [l|] eqn:Hl.
  - destruct (Forall2_lookup_l _ _ _ _ _ Hrows Hl) as (row & Hi & Hrow).
    rewrite (getitem_Some _ _ _ Hl), (getitem_Some _ _ _ Hi). cbn.
    by rewrite (store_bind_Return _ _ h row h)
      by (unfold Store.ints_at; by rewrite Hrow).
  - pose proof Hl as Hi. apply lookup_ge_None in Hi.
    rewrite (Forall2_length _ _ _ Hrows) in Hi. apply lookup_ge_None in Hi.
    unfold getitem. by rewrite Hl, Hi.
Qed.

Lemma store_item_refines h vec zs j :
  h !! vec = Some (Store.Ints zs) →
  Store.item vec j h = (getitem zs j, h).
Proof.
  intros Hvec. unfold Store.item.
  by rewrite (store_bind_Return _ _ h zs h)
    by (unfold Store.ints_at; by rewrite Hvec).
Qed.

Lemma store_all_request_le_refines h request rows w ws i js :
  Store.holds_matrix h request rows → h !! w = Some (Store.Ints ws) →
  Store.all_request_le request w i js h = (all_request_le rows ws i js, h).
Proof.
  intros Hreq Hw. induction js as [|j js IH]; [done|].
  cbn [Store.all_request_le all_request_le].
  unfold mbind at 1, Store.prog_bind.
  rewrite (store_entry_refines h request rows i j Hreq).
  destruct (getitem rows i) as [row| |]; cbn; [|done..].
  destruct (getitem row j) as [r| |]; cbn; [|done..].
  unfold mbind at 1, Store.prog_bind.
  rewrite (store_item_refines h w ws j Hw).
  destruct (getitem ws j) as [x| |]; cbn; [|done..].
  by destruct (r <=? x).
Qed.

Lemma store_release_refines h allocation rows w ws i js :
  Store.holds_matrix h allocation rows → h !! w = Some (Store.Ints ws) →
  Store.release allocation w i js h = (release rows ws i js, h).
Proof.
  intros Hal Hw. induction js as [|j js IH]; [done|].
  cbn [Store.release release].
  unfold mbind at 1, Store.prog_bind.
  rewrite (store_item_refines h w ws j Hw).
  destruct (getitem ws j) as [x| |]; cbn; [|done..].
  unfold mbind at 1, Store.prog_bind.
  rewrite (store_entry_refines h allocation rows i j Hal).
  destruct (getitem rows i) as [row| |]; cbn; [|done..].
  destruct (getitem row j) as [a| |]; cbn; [|done..].
  unfold mbind at 1, Store.prog_bind. rewrite IH.
  by destruct (release rows ws i js).
Qed.

Section store_refinement.
Variables (m : Z) (allocation request : Store.loc).
Variables (alloc_rows request_rows : list (list Z)).
Variables (h0 : Store.store) (flags : Store.loc).
Hypothesis Hallocation : Store.holds_matrix h0 allocation alloc_rows.
Hypothesis Hrequest : Store.holds_matrix h0 request request_rows.

Local Abbreviation variables_at := (Store.variables_at h0 flags).

Lemma store_visit_refines i x s h :
  variables_at h x s →
  Store.agrees variables_at
    (Store.visit m allocation request flags i x h)
    (visit m alloc_rows request_rows i s).
Proof.
  intros (Hpre & Hl & Hw & Hf & Hfound).
  pose proof (store_holds_matrix_prefix _ _ _ _ Hpre Hallocation) as Hal.
  pose proof (store_holds_matrix_prefix _ _ _ _ Hpre Hrequest) as Hreq.
  unfold Store.visit, visit.
  rewrite (store_bind_Return _ _ h (finish s) h)
    by (unfold Store.bools_at; by rewrite Hf).
  rewrite store_bind_lift.
  destruct (getitem (finish s) i) as [f| |] eqn:Hget; cbn; [|done..].
  destruct f; cbn [negb].
  { unfold Store.agrees. cbn. done. }
  unfold mbind at 1, Store.prog_bind.
  rewrite (store_all_request_le_refines h request request_rows x.1 (work s) i
             (range m) Hreq Hw).
  destruct (all_request_le request_rows (work s) i (range m)) as [ok| |];
    cbn; [|done..].
  destruct ok; [|unfold Store.agrees; cbn; done].
  unfold mbind at 1, Store.prog_bind.
  rewrite (store_release_refines h allocation alloc_rows x.1 (work s) i
             (range m) Hal Hw).
  destruct (release alloc_rows (work s) i (range m)) as [zs| |];
    cbn; [|done..].
  assert (i < length (finish s))%nat as Hi.
  { unfold getitem in Hget. destruct (finish s !! i) eqn:Hlook; [|done].
    by eapply lookup_lt_Some. }
  assert (flags < length h)%nat as Hflags by (by eapply lookup_lt_Some).
  unfold mbind at 1, Store.prog_bind, Store.alloc. cbn beta iota.
  rewrite (store_bind_Return _ _ _ ()
             (<[flags := Store.Bools (<[i:=true]> (finish s))]>
                (h ++ [Store.Ints zs]))).
  2:{ unfold Store.set_bool. rewrite (lookup_app_l_Some _ _ _ _ Hf).
      by rewrite decide_True. }
  unfold setitem. rewrite decide_True by done. cbn.
  unfold Store.agrees, Store.variables_at. cbn [fst snd work finish found].
  split; [|split; [|split; [|split]]].
  - apply prefix_insert_ge; [by apply prefix_app_r|done].
  - done.
  - rewrite list_lookup_insert_ne by lia. by apply list_lookup_middle.
  - apply list_lookup_insert_eq. rewrite length_app. lia.
  - done.
Qed.

Lemma store_for_each_refines order : ∀ x s h,
  variables_at h x s →
  Store.agrees variables_at
    (Store.for_each m allocation request flags order x h)
    (for_each m alloc_rows request_rows order s).
Proof.
  induction order as [|i order IH]; intros x s h Hvars; [done|].
  cbn [Store.for_each for_each].
  pose proof (store_visit_refines i x s h Hvars) as Hvisit.
  unfold mbind at 1, Store.prog_bind. unfold Store.agrees in Hvisit.
  destruct (Store.visit m allocation request flags i x h) as [[x'|e|] h'],
    (visit m alloc_rows request_rows i s) as [s'|e'|];
    cbn in Hvisit |- *; try done.
  by apply IH.
Qed.

Lemma store_while_true_refines order fuel : ∀ w ws fs h,
  variables_at h (w, false) (Vars ws fs false) →
  Store.agrees
    (λ h' w' r, h0 `prefix_of` h' ∧ h' !! w' = Some (Store.Ints r.1)
                ∧ h' !! flags = Some (Store.Bools r.2))
    (Store.while_true fuel m allocation request flags order w h)
    (while_true fuel m alloc_rows request_rows order ws fs).
Proof.
  induction fuel as [|fuel IH]; intros w ws fs h Hvars; [done|].
  cbn [Store.while_true while_true].
  pose proof (store_for_each_refines order _ _ h Hvars) as Hpass.
  unfold mbind at 1, Store.prog_bind. unfold Store.agrees in Hpass.
  destruct (Store.for_each m allocation request flags order (w, false) h)
    as [[[w' found']|e|] h'],
    (for_each m alloc_rows request_rows order (Vars ws fs false)) as [s'|e'|];
    cbn in Hpass |- *; try done.
  destruct Hpass as (Hpre & Hl & Hw & Hf & Hfound). cbn in Hw, Hfound. subst.
  destruct (found s') eqn:Hfound.
  - apply IH. repeat split; done.
  - unfold Store.agrees. cbn. done.
Qed.
End store_refinement.

(** The call on the store returns, or raises, what the list model does on
    the matrices and the vector that the arguments hold. *)
Lemma store_detect_deadlock_refines
    fuel n m allocation request available h alloc_rows request_rows zs :
  Store.holds_matrix h allocation alloc_rows →
  Store.holds_matrix h request request_rows →
  Store.holds_vector h available zs →
  (Store.detect_deadlock fuel n m allocation request available h).1
  = detect_deadlock fuel n m alloc_rows request_rows zs.
Proof.
  intros Hal Hreq Hav.
  unfold Store.detect_deadlock, detect_deadlock, detect_deadlock_in.
  rewrite (store_bind_Return _ _ h zs h)
    by (unfold Store.ints_at; by rewrite Hav).
  unfold mbind at 1, Store.prog_bind, Store.alloc at 1. cbn [fst snd].
  unfold mbind at 1, Store.prog_bind, Store.alloc at 1. cbn [fst snd].
  set (h1 := (h ++ [Store.Ints zs])
               ++ [Store.Bools (replicate (Z.to_nat n) false)]).
  pose proof (store_while_true_refines m allocation request alloc_rows
                request_rows h (length (h ++ [Store.Ints zs])) Hal Hreq
                (range n) fuel (length h) zs (replicate (Z.to_nat n) false) h1)
    as Hloop.
  assert (Store.variables_at h (length (h ++ [Store.Ints zs])) h1
            (length h, false)
            (Vars zs (replicate (Z.to_nat n) false) false)) as Hinit.
  { unfold h1, Store.variables_at. cbn [fst snd work finish found].
    split; [|split; [|split; [|split]]].
    - by apply prefix_app_r, prefix_app_r.
    - rewrite length_app. lia.
    - rewrite lookup_app_l by (rewrite length_app; cbn; lia).
      by apply list_lookup_middle.
    - by apply list_lookup_middle.
    - done. }
  specialize (Hloop Hinit).
  unfold mbind at 1, Store.prog_bind. unfold Store.agrees in Hloop.
  destruct (Store.while_true fuel m allocation request
              (length (h ++ [Store.Ints zs])) (range n) (length h) h1)
    as [[w|e|] h2],
    (while_true fuel m alloc_rows request_rows (range n) zs
       (replicate (Z.to_nat n) false)) as [[ws fs]|e'|];
    cbn [fst snd] in Hloop |- *; try done.
  - destruct Hloop as (_ & _ & Hf).
    rewrite (store_bind_Return _ _ h2 fs h2)
      by (unfold Store.bools_at; by rewrite Hf).
    rewrite store_bind_lift. cbn. by destruct (unfinished fs (range n)).
  - by subst.
Qed.

(** ** The advisor on the detector's list *)

Lemma StronglySorted_seq a k : StronglySorted lt (seq a k).
Proof.
  revert a. induction k as [|k IH]; intros a; [constructor|].
  cbn. constructor; [apply IH|].
  apply Forall_forall. intros x Hx%elem_of_seq. lia.
Qed.

Lemma StronglySorted_sublist {A} (R : relation A) (l1 l2 : list A) :
  l1 `sublist_of` l2 → StronglySorted R l2 → StronglySorted R l1.
Proof.
  induction 1 as [|x l1 l2 Hsub IH|x l1 l2 Hsub IH]; intros Hsorted.
  - constructor.
  - apply StronglySorted_inv in Hsorted as [Hsorted Hall].
    constructor; [by apply IH|].
    rewrite Forall_forall in Hall |- *. intros y Hy. apply Hall.
    by eapply sublist_subseteq.
  - apply StronglySorted_inv in Hsorted as [Hsorted _]. by apply IH.
Qed.

(** The list that [detect_deadlock] returns is in ascending index order,
    so the advisor, run on it, names the process of least index among the
    deadlocked processes of least allocation sum. *)
Lemma suggest_resolution_after_detect
    n m allocation request available fuel deadlocked message :
  valid_state n m allocation request available →
  (Z.to_nat n < fuel)%nat →
  detect_deadlock fuel n m allocation request available
  = Return (true, deadlocked, message) →
  ∃ v, suggest_resolution (Z.of_nat <$> deadlocked) allocation request
       = Return (advice_for v)
       ∧ least_index allocation (Z.of_nat <$> deadlocked) v.
Proof.
  intros Hvalid Hfuel Hdet.
  destruct (detect_deadlock_in_total n m allocation request available
              Hvalid (range n) ltac:(done))
    as (w & f & l & _ & _ & Hmem & Hsub & _ & _ & _ & Hret).
  rewrite (Hret fuel Hfuel) in Hdet. destruct l as [|i l]; [done|].
  cbn [report] in Hdet. injection Hdet as <- _.
  assert (Z.of_nat <$> i :: l ≠ []) as Hne by done.
  assert (covers allocation (Z.of_nat <$> i :: l)) as Hcov.
  { apply Forall_fmap, Forall_forall. intros k Hk. cbn.
    apply Hmem in Hk as [Hk%elem_of_range _].
    apply valid_state_inv in Hvalid as ([-> _] & _). lia. }
  assert (StronglySorted Z.le (Z.of_nat <$> i :: l)) as Hsorted.
  { apply (StronglySorted_fmap _ lt); [lia|].
    eapply StronglySorted_sublist; [done|]. apply StronglySorted_seq. }
  destruct (py_min_first_least allocation _ Hne Hcov) as (v & Hmin & Hv).
  exists v. split; [by apply suggest_resolution_victim|].
  by apply first_least_sorted.
Qed.

(** ** The detector: the deadlocked set is the greatest blocked set *)

Lemma released_nonneg f : ∀ rows j,
  (∀ row, row ∈ rows → 0 ≤ row !!! j) → 0 ≤ released f rows j.
Proof.
  induction f as [|b f IH]; intros [|row rows] j Hpos; cbn; try done.
  pose proof (Hpos row ltac:(by left)).
  pose proof (IH rows j ltac:(intros r Hr; apply Hpos; by right)).
  destruct b; lia.
Qed.

Lemma released_mono_rows f : ∀ rows rows' j,
  length rows = length rows' →
  (∀ i, (rows !!! i) !!! j ≤ (rows' !!! i) !!! j) →
  released f rows j ≤ released f rows' j.
Proof.
  induction f as [|b f IH]; intros [|row rows] [|row' rows'] j Hlen Hle;
    cbn; try done.
  pose proof (Hle 0%nat) as H0. cbn in H0.
  pose proof (IH rows rows' j ltac:(cbn in Hlen; lia)
                ltac:(intros i; apply (Hle (S i)))).
  destruct b; lia.
Qed.

Lemma length_flags_without n deadlocked :
  length (flags_without n deadlocked) = Z.to_nat n.
Proof. unfold flags_without. by rewrite length_fmap, length_range. Qed.

Lemma lookup_flags_without n deadlocked i :
  (i < Z.to_nat n)%nat →
  flags_without n deadlocked !! i = Some (bool_decide (i ∉ deadlocked)).
Proof.
  intros Hi. unfold flags_without, range.
  rewrite list_lookup_fmap, lookup_seq_lt; [done|lia].
Qed.

(** The flags at the end of the loop are those of the reported list. *)
Lemma flags_without_unfinished n (f : list bool) deadlocked :
  length f = Z.to_nat n →
  (∀ i, i ∈ deadlocked ↔ i ∈ range n ∧ f !! i = Some false) →
  f = flags_without n deadlocked.
Proof.
  intros Hlen Hmem.
  apply (list_eq_same_length _ _ (Z.to_nat n));
    [by rewrite length_flags_without|done|].
  intros i b b' Hi Hb Hb'.
  rewrite (lookup_flags_without _ _ _ Hi) in Hb'. injection Hb' as <-.
  destruct b.
  - symmetry. apply bool_decide_eq_true. intros [_ Hf]%Hmem. congruence.
  - symmetry. apply bool_decide_eq_false. intros Hnot. apply Hnot, Hmem.
    split; [apply elem_of_range; lia|done].
Qed.

Lemma not_can_finish m request w i :
  ¬ can_finish m request w i →
  ∃ j, j ∈ range m ∧ w !!! j < (request !!! i) !!! j.
Proof.
  intros Hnot.
  destruct (decide (Forall (λ j, (request !!! i) !!! j ≤ w !!! j) (range m)))
    as [Hall|Hex].
  - exfalso. apply Hnot. intros j Hj. rewrite Forall_forall in Hall. auto.
  - apply not_Forall_Exists in Hex; [|apply _].
    apply Exists_exists in Hex as (j & Hj & Hlt). exists j. split; [done|].
    cbn in Hlt. lia.
Qed.

(** The end of the loop on a valid state, with all that is known of it. *)
Lemma detect_deadlock_fixed_point n m allocation request available :
  valid_state n m allocation request available →
  ∃ w deadlocked,
    shaped n m w (flags_without n deadlocked)
    ∧ accounted m allocation available w (flags_without n deadlocked)
    ∧ stuck m request (range n) w (flags_without n deadlocked)
    ∧ rtc (fires m allocation request)
        (available, replicate (Z.to_nat n) false)
        (w, flags_without n deadlocked)
    ∧ deadlocked `sublist_of` range n
    ∧ (∀ fuel, (Z.to_nat n < fuel)%nat →
         while_true fuel m allocation request (range n) available
           (replicate (Z.to_nat n) false)
         = Return (w, flags_without n deadlocked))
    ∧ (∀ fuel, (Z.to_nat n < fuel)%nat →
         detect_deadlock fuel n m allocation request available
         = Return (report deadlocked)).
Proof.
  intros Hvalid.
  destruct (while_true_order_independent n m allocation request available
              Hvalid (range n) (range n) ltac:(done) ltac:(done))
    as (w & f & Hs & Hstuck & Hrtc & Hret & _).
  destruct (rtc_fires_invariant n m allocation request available Hvalid
              _ _ Hrtc) as [_ Hacc].
  { split; [by eapply init_shaped|apply init_accounted]. }
  destruct (unfinished_total f (range n)) as (l & Hl & Hmem & Hsub).
  { intros i Hi%elem_of_range. destruct Hs as [-> _]. lia. }
  assert (f = flags_without n l) as Hf.
  { apply flags_without_unfinished; [by destruct Hs|done]. }
  exists w, l. rewrite <- Hf. repeat (split; [done|]).
  intros fuel Hfuel. unfold detect_deadlock, detect_deadlock_in.
  rewrite (Hret fuel Hfuel). cbn. by rewrite Hl.
Qed.

Lemma report_list deadlocked is_deadlock l message :
  report deadlocked = (is_deadlock, l, message) → l = deadlocked.
Proof. destruct deadlocked; cbn; congruence. Qed.

(** No process of a blocked set is ever fired. *)
Lemma rtc_fires_avoids n m allocation request available blocked_set x :
  valid_state n m allocation request available →
  (∀ i, i ∈ blocked_set →
     blocked_in m allocation request available n blocked_set i) →
  rtc (fires m allocation request)
    (available, replicate (Z.to_nat n) false) x →
  ∀ i, i ∈ blocked_set → x.2 !! i ≠ Some true.
Proof.
  intros Hvalid Hblocked Hrtc. revert x Hrtc.
  apply (rtc_ind_r (λ x, ∀ i, i ∈ blocked_set → x.2 !! i ≠ Some true)).
  { intros i _ Hi. cbn in Hi. by apply lookup_replicate in Hi as [? _]. }
  intros x y Hrtc Hfire IH.
  destruct (rtc_fires_invariant n m allocation request available Hvalid
              _ _ Hrtc) as [[Hxf Hxw] Hxacc].
  { split; [by eapply init_shaped|apply init_accounted]. }
  destruct Hfire as [i0 w0 f0 Hi0 Hcan]. cbn in *.
  intros i Hi. destruct (decide (i = i0)) as [->|Hne].
  2:{ rewrite list_lookup_insert_ne by done. by apply IH. }
  exfalso. destruct (Hblocked i0 Hi) as (j & Hj & Hlt).
  specialize (Hcan j Hj). rewrite (Hxacc j Hj) in Hcan.
  assert (released f0 allocation j
          ≤ released (flags_without n blocked_set) allocation j); [|lia].
  apply released_mono.
  - by rewrite length_flags_without.
  - intros k Hk.
    assert (k < Z.to_nat n)%nat as Hkn.
    { rewrite <- Hxf. by eapply lookup_lt_Some. }
    rewrite (lookup_flags_without _ _ _ Hkn). f_equal.
    apply bool_decide_eq_true. intros Hin. by apply (IH k Hin).
  - by eapply allocation_row_pos.
Qed.

(** An unfinished process of a fixed point is blocked. *)
Lemma stuck_blocked_in n m allocation request available w l i :
  accounted m allocation available w (flags_without n l) →
  stuck m request (range n) w (flags_without n l) →
  i ∈ range n → i ∈ l →
  blocked_in m allocation request available n l i.
Proof.
  intros Hacc Hstuck Hin Hi.
  assert (i < Z.to_nat n)%nat as Hlt by (apply elem_of_range in Hin; lia).
  destruct (not_can_finish m request w i) as (j & Hj & Hblocked).
  { apply Hstuck; [done|]. rewrite (lookup_flags_without _ _ _ Hlt).
    f_equal. apply bool_decide_eq_false. tauto. }
  exists j. split; [done|]. by rewrite <- (Hacc j Hj).
Qed.

(** X1.  On a valid state every process that [detect_deadlock] reports is
    a process of the system and is blocked: for some resource class it
    requests more than [available] and the allocations of all the
    processes that are not reported, together. *)
Theorem detect_deadlock_reported_blocked
    n m allocation request available fuel is_deadlock deadlocked message :
  valid_state n m allocation request available →
  (Z.to_nat n < fuel)%nat →
  detect_deadlock fuel n m allocation request available
  = Return (is_deadlock, deadlocked, message) →
  ∀ i, i ∈ deadlocked →
    Z.of_nat i < n
    ∧ blocked_in m allocation request available n deadlocked i.
Proof.
  intros Hvalid Hfuel Hdet i Hi.
  destruct (detect_deadlock_fixed_point n m allocation request available Hvalid)
    as (w & l & [Hlen _] & Hacc & Hstuck & _ & Hsub & _ & Hret).
  rewrite (Hret fuel Hfuel) in Hdet. injection Hdet as Hrep.
  apply report_list in Hrep as <-.
  assert (i ∈ range n) as Hin by (by eapply sublist_subseteq).
  split; [by apply elem_of_range|]. by eapply stuck_blocked_in.
Qed.

Lemma detect_deadlock_reported_blocked_witness :
  valid_state 2 2 [[1; 0]; [0; 1]] [[0; 1]; [1; 0]] [0; 0]
  ∧ detect_deadlock 3 2 2 [[1; 0]; [0; 1]] [[0; 1]; [1; 0]] [0; 0]
    = Return (true, [0; 1]%nat, "Deadlock detected in processes: [0, 1].")
  ∧ ∀ i, i ∈ [0; 1]%nat →
      Z.of_nat i < 2
      ∧ blocked_in 2 [[1; 0]; [0; 1]] [[0; 1]; [1; 0]] [0; 0] 2 [0; 1]%nat i.
Proof.
  split; [reflexivity|]. split; [reflexivity|].
  apply (detect_deadlock_reported_blocked 2 2 [[1; 0]; [0; 1]]
           [[0; 1]; [1; 0]] [0; 0] 3 true [0; 1]%nat
           "Deadlock detected in processes: [0, 1]." eq_refl);
    [vm_compute; lia|reflexivity].
Defined.

(** X2.  On a valid state every set of processes that block one another is
    reported: if each process of [blocked_set] requests, for some resource
    class, more than [available] and the allocations of the processes
    outside [blocked_set] together, then all of [blocked_set] is in the
    list that [detect_deadlock] returns.  With X1, the list is the greatest
    such set. *)
Theorem detect_deadlock_blocked_reported
    n m allocation request available fuel is_deadlock deadlocked message
    blocked_set :
  valid_state n m allocation request available →
  (Z.to_nat n < fuel)%nat →
  detect_deadlock fuel n m allocation request available
  = Return (is_deadlock, deadlocked, message) →
  (∀ i, i ∈ blocked_set →
     Z.of_nat i < n
     ∧ blocked_in m allocation request available n blocked_set i) →
  ∀ i, i ∈ blocked_set → i ∈ deadlocked.
Proof.
  intros Hvalid Hfuel Hdet Hblocked i Hi.
  destruct (detect_deadlock_fixed_point n m allocation request available Hvalid)
    as (w & l & _ & _ & _ & Hrtc & _ & _ & Hret).
  rewrite (Hret fuel Hfuel) in Hdet. injection Hdet as Hrep.
  apply report_list in Hrep as <-.
  pose proof (rtc_fires_avoids n m allocation request available blocked_set
                _ Hvalid (λ k Hk, proj2 (Hblocked k Hk)) Hrtc i Hi) as Hnot.
  cbn in Hnot. destruct (Hblocked i Hi) as [Hlt _].
  rewrite lookup_flags_without in Hnot by lia.
  destruct (decide (i ∈ deadlocked)) as [|Hout]; [done|exfalso].
  apply Hnot. f_equal. by apply bool_decide_eq_true.
Qed.

Lemma detect_deadlock_blocked_reported_witness :
  valid_state 3 1 [[1]; [1]; [0]] [[2]; [2]; [0]] [0]
  ∧ (∀ i, i ∈ [1]%nat →
       Z.of_nat i < 3
       ∧ blocked_in 1 [[1]; [1]; [0]] [[2]; [2]; [0]] [0] 3 [1]%nat i)
  ∧ ∀ i, i ∈ [1]%nat → i ∈ [0; 1]%nat.
Proof.
  assert (∀ i, i ∈ [1]%nat →
            Z.of_nat i < 3
            ∧ blocked_in 1 [[1]; [1]; [0]] [[2]; [2]; [0]] [0] 3 [1]%nat i)
    as Hblocked.
  { intros i Hi.
    apply elem_of_cons in Hi as [->|Hi]; [|by apply elem_of_nil in Hi].
    split; [lia|]. exists 0%nat. split; [repeat constructor|].
    vm_compute. reflexivity. }
  split; [reflexivity|]. split; [exact Hblocked|].
  apply (detect_deadlock_blocked_reported 3 1 [[1]; [1]; [0]] [[2]; [2]; [0]]
           [0] 4 true [0; 1]%nat "Deadlock detected in processes: [0, 1]."
           [1]%nat eq_refl);
    [vm_compute; lia|reflexivity|exact Hblocked].
Defined.

(** X3.  On a valid state a process whose whole request is covered by
    [available] is never reported; so when every request is covered by
    [available] there is no deadlock. *)
Theorem detect_deadlock_covered_request
    n m allocation request available fuel is_deadlock deadlocked message :
  valid_state n m allocation request available →
  (Z.to_nat n < fuel)%nat →
  detect_deadlock fuel n m allocation request available
  = Return (is_deadlock, deadlocked, message) →
  (∀ i, can_finish m request available i → i ∉ deadlocked)
  ∧ ((∀ i, i ∈ range n → can_finish m request available i) →
     is_deadlock = false ∧ deadlocked = []).
Proof.
  intros Hvalid Hfuel Hdet.
  destruct (detect_deadlock_fixed_point n m allocation request available Hvalid)
    as (w & l & [Hlen _] & Hacc & Hstuck & _ & Hsub & _ & Hret).
  rewrite (Hret fuel Hfuel) in Hdet. injection Hdet as Hrep.
  assert (∀ i, can_finish m request available i → i ∉ l) as Hcovered.
  { intros i Hcan Hi.
    assert (i ∈ range n) as Hin by (by eapply sublist_subseteq).
    destruct (stuck_blocked_in n m allocation request available w l i
                Hacc Hstuck Hin Hi) as (j & Hj & Hlt).
    specialize (Hcan j Hj).
    pose proof (released_nonneg (flags_without n l) allocation j
                  (allocation_row_pos n m allocation request available
                     Hvalid j)). lia. }
  pose proof (report_list _ _ _ _ Hrep) as ->. split; [done|].
  intros Hall. destruct l as [|i l].
  - cbn in Hrep. by injection Hrep as <- _.
  - exfalso. apply (Hcovered i); [|by left].
    apply Hall. eapply sublist_subseteq; [done|by left].
Qed.

Lemma detect_deadlock_covered_request_witness :
  valid_state 2 1 [[1]; [1]] [[1]; [3]] [1]
  ∧ (can_finish 1 [[1]; [3]] [1] 0 → 0%nat ∉ [1]%nat).
Proof.
  split; [reflexivity|].
  apply (proj1 (detect_deadlock_covered_request 2 1 [[1]; [1]] [[1]; [3]] [1]
                  3 true [1]%nat "Deadlock detected in processes: [1]."
                  eq_refl ltac:(vm_compute; lia) eq_refl)).
Defined.

(** X4.  The report is monotone in the state.  Of two valid states of the
    same size, if the second has at least the available units and at least
    the allocations of the first, and at most its requests, then every
    process reported for the second is reported for the first. *)
Theorem detect_deadlock_monotone
    n m allocation request available allocation' request' available'
    fuel is_deadlock deadlocked message is_deadlock' deadlocked' message' :
  valid_state n m allocation request available →
  valid_state n m allocation' request' available' →
  vector_le m available available' →
  matrix_le m allocation allocation' →
  matrix_le m request' request →
  (Z.to_nat n < fuel)%nat →
  detect_deadlock fuel n m allocation request available
  = Return (is_deadlock, deadlocked, message) →
  detect_deadlock fuel n m allocation' request' available'
  = Return (is_deadlock', deadlocked', message') →
  ∀ i, i ∈ deadlocked' → i ∈ deadlocked.
Proof.
  intros Hvalid Hvalid' Hav Hal Hreq Hfuel Hdet Hdet' i Hi.
  destruct (detect_deadlock_fixed_point n m allocation request available Hvalid)
    as (w & l & _ & _ & _ & Hrtc & _ & _ & Hret).
  destruct (detect_deadlock_fixed_point n m allocation' request' available'
              Hvalid')
    as (w' & l' & _ & Hacc' & Hstuck' & _ & Hsub' & _ & Hret').
  rewrite (Hret fuel Hfuel) in Hdet. injection Hdet as Hrep.
  rewrite (Hret' fuel Hfuel) in Hdet'. injection Hdet' as Hrep'.
  apply report_list in Hrep as <-. apply report_list in Hrep' as <-.
  assert (length allocation = length allocation') as Hrows.
  { apply valid_state_inv in Hvalid as ([Hl _] & _).
    apply valid_state_inv in Hvalid' as ([Hl' _] & _).
    unfold len in *. lia. }
  assert (∀ k, k ∈ deadlocked' →
            blocked_in m allocation request available n deadlocked' k)
    as Hblocked.
  { intros k Hk.
    assert (k ∈ range n) as Hin by (by eapply sublist_subseteq).
    destruct (stuck_blocked_in n m allocation' request' available' w'
                deadlocked' k Hacc' Hstuck' Hin Hk) as (j & Hj & Hlt).
    exists j. split; [done|].
    pose proof (Hav j Hj). pose proof (Hreq k j Hj).
    pose proof (released_mono_rows (flags_without n deadlocked') allocation
                  allocation' j Hrows (λ r, Hal r j Hj)). lia. }
  pose proof (rtc_fires_avoids n m allocation request available deadlocked'
                _ Hvalid Hblocked Hrtc i Hi) as Hnot.
  cbn in Hnot.
  assert (i < Z.to_nat n)%nat as Hlt.
  { assert (i ∈ range n) as Hin%elem_of_range by (by eapply sublist_subseteq).
    lia. }
  rewrite lookup_flags_without in Hnot by lia.
  destruct (decide (i ∈ deadlocked)) as [|Hout]; [done|exfalso].
  apply Hnot. f_equal. by apply bool_decide_eq_true.
Qed.

Lemma detect_deadlock_monotone_witness :
  valid_state 2 1 [[1]; [1]] [[2]; [5]] [0]
  ∧ valid_state 2 1 [[1]; [1]] [[2]; [5]] [2]
  ∧ vector_le 1 [0] [2]
  ∧ ∀ i, i ∈ [1]%nat → i ∈ [0; 1]%nat.
Proof.
  assert (vector_le 1 [0] [2]) as Hav.
  { intros j Hj%elem_of_range. assert (j = 0%nat) as -> by lia.
    vm_compute. discriminate. }
  split; [reflexivity|]. split; [reflexivity|]. split; [exact Hav|].
  apply (detect_deadlock_monotone 2 1 [[1]; [1]] [[2]; [5]] [0]
           [[1]; [1]] [[2]; [5]] [2] 3
           true [0; 1]%nat "Deadlock detected in processes: [0, 1]."
           true [1]%nat "Deadlock detected in processes: [1]."
           eq_refl eq_refl Hav).
  - intros i j Hj. lia.
  - intros i j Hj. lia.
  - vm_compute. lia.
  - reflexivity.
  - reflexivity.
Defined.

(** X5.  Resources are conserved.  On a valid state, whenever the loop
    returns, in whatever order the passes visit the processes, [work] has
    one entry for each resource class and each entry is that of
    [available] plus the allocations of the processes marked finished. *)
Theorem while_true_conserves
    n m allocation request available order fuel w f :
  valid_state n m allocation request available →
  while_true fuel m allocation request order available
    (replicate (Z.to_nat n) false) = Return (w, f) →
  length w = Z.to_nat m ∧ length f = Z.to_nat n
  ∧ ∀ j, j ∈ range m →
      w !!! j = available !!! j + released f allocation j.
Proof.
  intros Hvalid Hrun.
  pose proof (init_shaped n m allocation request available Hvalid) as Hinit.
  pose proof (while_true_steps n m allocation request available Hvalid
                order fuel _ _ _ _ Hinit Hrun) as Hrtc.
  destruct (rtc_fires_invariant n m allocation request available Hvalid
              _ _ Hrtc) as [[Hf Hw] Hacc].
  { split; [done|apply init_accounted]. }
  done.
Qed.

Lemma while_true_conserves_witness :
  valid_state 2 2 [[1; 0]; [0; 3]] [[0; 1]; [0; 0]] [0; 0]
  ∧ while_true 3 2 [[1; 0]; [0; 3]] [[0; 1]; [0; 0]] [1; 0]%nat [0; 0]
      (replicate (Z.to_nat 2) false) = Return ([1; 3], [true; true])
  ∧ ∀ j, j ∈ range 2 →
      [1; 3] !!! j = [0; 0] !!! j
                     + released [true; true] [[1; 0]; [0; 3]] j.
Proof.
  split; [reflexivity|]. split; [reflexivity|].
  exact (proj2 (proj2 (while_true_conserves 2 2 [[1; 0]; [0; 3]]
                         [[0; 1]; [0; 0]] [0; 0] [1; 0]%nat 3 [1; 3]
                         [true; true] eq_refl eq_refl))).
Defined.

(** ** The detector on any input *)

Lemma getitem_cases {A} (l : list A) i :
  (∃ x, l !! i = Some x ∧ getitem l i = Return x)
  ∨ ((length l ≤ i)%nat ∧ getitem l i = Raise IndexError).
Proof.
  unfold getitem. destruct (l !! i) as [x|] eqn:Hx; [left; eauto|right].
  split; [by apply lookup_ge_None|done].
Qed.

Lemma all_request_le_cases request w i js :
  returns_or_IndexError (all_request_le request w i js).
Proof.
  induction js as [|j js IH]; [left; eauto|]. cbn [all_request_le].
  destruct (getitem_cases request i) as [(row & _ & ->)|[_ ->]]; [|by right].
  cbn. destruct (getitem_cases row j) as [(r & _ & ->)|[_ ->]]; [|by right].
  cbn. destruct (getitem_cases w j) as [(x & _ & ->)|[_ ->]]; [|by right].
  cbn. destruct (r <=? x); [done|left; eauto].
Qed.

Lemma release_cases allocation w i js :
  returns_or_IndexError (release allocation w i js).
Proof.
  induction js as [|j js IH]; [left; eauto|]. cbn [release].
  destruct (getitem_cases w j) as [(x & _ & ->)|[_ ->]]; [|by right].
  cbn. destruct (getitem_cases allocation i) as [(row & _ & ->)|[_ ->]];
    [|by right].
  cbn. destruct (getitem_cases row j) as [(a & _ & ->)|[_ ->]]; [|by right].
  cbn. destruct IH as [[rest ->]| ->]; [left; eauto|by right].
Qed.

(** A visit raises [IndexError], or leaves the variables as they are, or
    marks the unfinished process [i] and sets [found]. *)
Lemma visit_cases m allocation request i s :
  visit m allocation request i s = Raise IndexError
  ∨ visit m allocation request i s = Return s
  ∨ (finish s !! i = Some false
     ∧ ∃ w', visit m allocation request i s
             = Return (Vars w' (<[i:=true]> (finish s)) true)).
Proof.
  unfold visit.
  destruct (getitem_cases (finish s) i) as [(b & Hb & ->)|[_ ->]]; [|by left].
  cbn. destruct b; cbn [negb]; [by right; left|].
  destruct (all_request_le_cases request (work s) i (range m))
    as [[ok ->]| ->]; [|by left].
  cbn. destruct ok; [|by right; left].
  destruct (release_cases allocation (work s) i (range m))
    as [[w' ->]| ->]; [|by left].
  cbn. unfold setitem.
  rewrite decide_True by (by eapply lookup_lt_Some).
  right; right. split; [done|]. by exists w'.
Qed.

Lemma for_each_cases m allocation request order : ∀ s,
  for_each m allocation request order s = Raise IndexError
  ∨ ∃ s', for_each m allocation request order s = Return s'
      ∧ length (finish s') = length (finish s)
      ∧ (s' = s
         ∨ (found s' = true ∧ (pending (finish s') < pending (finish s))%nat)).
Proof.
  induction order as [|i order IH]; intros s; [right; exists s; auto|].
  cbn [for_each].
  destruct (visit_cases m allocation request i s)
    as [->|[->|(Hi & w' & ->)]]; [by left|..]; cbn.
  - apply IH.
  - destruct (IH (Vars w' (<[i:=true]> (finish s)) true))
      as [->|(s' & -> & Hlen & Hcase)]; [by left|right].
    cbn [finish] in Hlen, Hcase. rewrite length_insert in Hlen.
    pose proof (pending_insert (finish s) i Hi) as Hp.
    exists s'. split; [done|]. split; [done|]. right.
    destruct Hcase as [->|[Hfound Hdec]];
      [cbn [finish found]; split; [done|lia]|].
    split; [done|lia].
Qed.

Lemma while_true_cases m allocation request order c : ∀ w f fuel,
  (pending f ≤ c)%nat → (c < fuel)%nat →
  while_true fuel m allocation request order w f = Raise IndexError
  ∨ ∃ w' f', while_true fuel m allocation request order w f = Return (w', f')
      ∧ length f' = length f.
Proof.
  induction c as [|c IH]; intros w f [|fuel] Hc Hfuel; try lia;
    cbn [while_true];
    destruct (for_each_cases m allocation request order (Vars w f false))
      as [->|(s' & -> & Hlen & Hcase)]; try (by left); cbn;
    cbn [finish] in Hlen, Hcase.
  - destruct Hcase as [->|[_ Hdec]]; [|lia]. right. by exists w, f.
  - destruct Hcase as [->|[-> Hdec]]; [right; by exists w, f|].
    destruct (IH (work s') (finish s') fuel ltac:(lia) ltac:(lia))
      as [->|(w' & f' & -> & Hlen')]; [by left|right].
    exists w', f'. split; [done|]. lia.
Qed.

(** X6.  [detect_deadlock] ends on every input, valid or not, in which
    one of the two matrices has at least [n] rows, so that [n] is a length
    that a list has and [[False] * n] is built: with fuel for [n + 1]
    passes it returns a report or raises [IndexError]; it is never cut
    short and raises nothing else. *)
Theorem detect_deadlock_ends fuel n m allocation request available :
  n ≤ len allocation ∨ n ≤ len request →
  (Z.to_nat n < fuel)%nat →
  returns_or_IndexError
    (detect_deadlock fuel n m allocation request available).
Proof.
  intros _ Hfuel. unfold detect_deadlock, detect_deadlock_in.
  destruct (while_true_cases m allocation request (range n) (Z.to_nat n)
              available (replicate (Z.to_nat n) false) fuel)
    as [->|(w & f & -> & Hlen)]; [..|by right|].
  - etrans; [apply pending_le|]. by rewrite length_replicate.
  - done.
  - cbn. rewrite length_replicate in Hlen.
    destruct (unfinished_total f (range n)) as (l & -> & _).
    { intros i Hi%elem_of_range. lia. }
    left. by eexists.
Qed.

Lemma detect_deadlock_ends_witness :
  (2 ≤ len [[1]; [1; 2; 3]] ∨ 2 ≤ len [[0]])
  ∧ (Z.to_nat 2 < 3)%nat
  ∧ returns_or_IndexError (detect_deadlock 3 2 2 [[1]; [1; 2; 3]] [[0]] [5]).
Proof.
  assert (2 ≤ len [[1]; [1; 2; 3]] ∨ 2 ≤ len [[0]]) as Hrows.
  { left. vm_compute. discriminate. }
  assert (Z.to_nat 2 < 3)%nat as Hfuel by (vm_compute; lia).
  split; [exact Hrows|]. split; [exact Hfuel|].
  exact (detect_deadlock_ends 3 2 2 [[1]; [1; 2; 3]] [[0]] [5] Hrows Hfuel).
Defined.

Lemma for_each_app m allocation request order order' : ∀ s,
  for_each m allocation request (order ++ order') s
  = for_each m allocation request order s
    ≫= for_each m allocation request order'.
Proof.
  induction order as [|i order IH]; intros s; [done|].
  cbn [app for_each].
  destruct (visit m allocation request i s) as [s1|e|]; cbn; [apply IH|done..].
Qed.

(** A pass changes the flag of no process that it does not visit. *)
Lemma for_each_keeps m allocation request k order : ∀ s s',
  k ∉ order →
  for_each m allocation request order s = Return s' →
  finish s' !! k = finish s !! k.
Proof.
  induction order as [|i order IH]; intros s s' Hk Hrun.
  - by injection Hrun as <-.
  - apply not_elem_of_cons in Hk as [Hne Hk]. cbn [for_each] in Hrun.
    destruct (visit_cases m allocation request i s)
      as [Hv|[Hv|(_ & w' & Hv)]]; rewrite Hv in Hrun; cbn in Hrun.
    + done.
    + by apply IH.
    + rewrite (IH _ _ Hk Hrun). cbn. by rewrite list_lookup_insert_ne.
Qed.

(** X7.  Without validation a short request matrix is an exception, not a
    report: when there is at least one resource class, the allocation
    matrix has at least [n] rows and the request matrix has fewer,
    [detect_deadlock] raises [IndexError]. *)
Theorem detect_deadlock_short_request
    fuel n m allocation request available :
  (0 < fuel)%nat → 0 < m → n ≤ len allocation → len request < n →
  detect_deadlock fuel n m allocation request available = Raise IndexError.
Proof.
  intros Hfuel Hm _ Hshort. unfold len in Hshort.
  remember (length request) as k eqn:Hrows.
  assert (range n = seq 0 k ++ k :: seq (S k) (Z.to_nat n - S k)) as Hrange.
  { unfold range.
    replace (Z.to_nat n) with (k + S (Z.to_nat n - S k))%nat at 1 by lia.
    by rewrite seq_app. }
  unfold detect_deadlock, detect_deadlock_in.
  destruct fuel as [|fuel]; [lia|]. cbn [while_true].
  rewrite Hrange at 1. rewrite for_each_app.
  destruct (for_each_cases m allocation request (seq 0 k)
              (Vars available (replicate (Z.to_nat n) false) false))
    as [->|(s1 & Hs1 & _)]; [done|].
  rewrite Hs1. cbn -[seq].
  assert (finish s1 !! k = Some false) as Hk.
  { assert (k ∉ seq 0 k) as Hout by (rewrite elem_of_seq; lia).
    rewrite (for_each_keeps _ _ _ k _ _ _ Hout Hs1).
    cbn. apply lookup_replicate. split; [done|lia]. }
  unfold visit. rewrite (getitem_Some _ _ _ Hk). cbn -[seq].
  assert (range m = 0%nat :: seq 1 (Z.to_nat m - 1)) as ->.
  { unfold range. destruct (Z.to_nat m) as [|m'] eqn:Hm'; [lia|].
    cbn. by rewrite Nat.sub_0_r. }
  assert (getitem request k = Raise IndexError) as Hraise.
  { unfold getitem. by rewrite lookup_ge_None_2 by lia. }
  cbn [all_request_le]. by rewrite Hraise.
Qed.

Lemma detect_deadlock_short_request_witness :
  (0 < 3)%nat ∧ 0 < 1 ∧ 2 ≤ len [[1]; [1]] ∧ len [[0]] < 2
  ∧ detect_deadlock 3 2 1 [[1]; [1]] [[0]] [5] = Raise IndexError.
Proof.
  assert (0 < 3)%nat as Hfuel by lia.
  assert (0 < 1) as Hm by lia.
  assert (2 ≤ len [[1]; [1]]) as Hrows by (vm_compute; discriminate).
  assert (len [[0]] < 2) as Hshort by (vm_compute; reflexivity).
  split; [exact Hfuel|]. split; [exact Hm|]. split; [exact Hrows|].
  split; [exact Hshort|].
  exact (detect_deadlock_short_request 3 2 1 [[1]; [1]] [[0]] [5]
           Hfuel Hm Hrows Hshort).
Defined.

(** ** The validator: every input has a verdict *)

(** X8.  [validate_inputs] never raises: the shape checks guard every
    subscript of the sign checks.  It returns [(True, "")] or [False] with
    one of its five reasons, and the reason is empty exactly when the
    verdict is [True]. *)
Theorem validate_inputs_never_raises n m allocation request available :
  ∃ ok reason,
    validate_inputs n m allocation request available = Return (ok, reason)
    ∧ (ok = true ↔ reason = "")
    ∧ reason ∈ [""; "Allocation matrix must be n x m.";
                "Request matrix must be n x m.";
                "Available vector must have m elements.";
                "Values must be non-negative.";
                "Available values must be non-negative."].
Proof.
  destruct (validate_inputs_total n m allocation request available)
    as ([ok reason] & -> & Hverdict).
  exists ok, reason. split; [done|].
  inversion Hverdict; subst; (split; [done|]); rewrite !elem_of_cons; auto 10.
Qed.

(** X9.  The order of the sign checks.  On a well-shaped input a negative
    entry of the allocation or of the request matrix gives the reason
    "Values must be non-negative.", whatever the available vector holds;
    a negative entry of the available vector gives "Available values must
    be non-negative." only when both matrices are non-negative. *)
Theorem validate_inputs_sign_reasons n m allocation request available :
  well_shaped n m allocation → well_shaped n m request → len available = m →
  (has_negative allocation ∨ has_negative request →
   validate_inputs n m allocation request available
   = Return (false, "Values must be non-negative."))
  ∧ (non_negative allocation → non_negative request →
     (∃ x, x ∈ available ∧ x < 0) →
     validate_inputs n m allocation request available
     = Return (false, "Available values must be non-negative.")).
Proof.
  intros Hsa Hsr Hlen.
  destruct (validate_inputs_total n m allocation request available)
    as (res & -> & Hverdict).
  split.
  - intros Hneg.
    destruct (has_negative_at n m allocation request Hsa Hsr Hneg)
      as (i & j & Hi & Hj & Hat).
    inversion Hverdict as [| | | |x ? ? ? Hno|? ? ? Hno]; try done.
    + by destruct (Hno i j).
    + by destruct (Hno i j).
  - intros Hna Hnr (x & Hx & Hlt).
    inversion Hverdict as [| | |i j ? ? ? ? ? Hat| |? ? ? ? Hall]; try done.
    + by apply non_negative_at in Hat.
    + rewrite Forall_forall in Hall. specialize (Hall _ Hx). lia.
Qed.

Lemma validate_inputs_sign_reasons_witness :
  well_shaped 1 2 [[1; -1]] ∧ well_shaped 1 2 [[0; 0]] ∧ len [-5; 0] = 2
  ∧ validate_inputs 1 2 [[1; -1]] [[0; 0]] [-5; 0]
    = Return (false, "Values must be non-negative.").
Proof.
  assert (well_shaped 1 2 [[1; -1]]) as Hsa.
  { split; [reflexivity|]. repeat constructor. }
  assert (well_shaped 1 2 [[0; 0]]) as Hsr.
  { split; [reflexivity|]. repeat constructor. }
  split; [exact Hsa|]. split; [exact Hsr|]. split; [reflexivity|].
  apply (proj1 (validate_inputs_sign_reasons 1 2 [[1; -1]] [[0; 0]] [-5; 0]
                  Hsa Hsr eq_refl)).
  left. exists [1; -1], (-1). split; [repeat constructor|].
  split; [repeat constructor|lia].
Defined.

(** X10.  A negative size is never accepted.  With [n < 0] the verdict is
    [False] with the allocation reason; with [m < 0] it is [False] with a
    shape reason; so a state that passes has [n >= 0] and [m >= 0]. *)
Theorem validate_inputs_negative_size n m allocation request available :
  (n < 0 →
   validate_inputs n m allocation request available
   = Return (false, "Allocation matrix must be n x m."))
  ∧ (m < 0 →
     ∃ reason,
       validate_inputs n m allocation request available
       = Return (false, reason)
       ∧ reason ∈ ["Allocation matrix must be n x m.";
                   "Request matrix must be n x m.";
                   "Available vector must have m elements."])
  ∧ (valid_state n m allocation request available → 0 ≤ n ∧ 0 ≤ m).
Proof.
  destruct (validate_inputs_total n m allocation request available)
    as (res & Hres & Hverdict).
  assert (∀ mat, well_shaped n m mat → 0 ≤ n) as Hn.
  { intros mat [<- _]. unfold len. lia. }
  split; [|split].
  - intros Hneg. rewrite Hres.
    inversion Hverdict as [|Hs|Hs|? ? Hs|? Hs|Hs]; subst; [done|..];
      apply Hn in Hs; lia.
  - intros Hneg. rewrite Hres.
    inversion Hverdict as [| | |? ? ? ? Hav|? ? ? Hav|? ? Hav];
      try (unfold len in Hav; lia);
      eexists; (split; [done|]); rewrite !elem_of_cons; auto.
  - unfold valid_state. rewrite Hres. intros [= ->].
    inversion Hverdict as [| | | | |Hs ? Hav]. split; [by eapply Hn|].
    unfold len in Hav. lia.
Qed.

Lemma validate_inputs_negative_size_witness :
  -1 < 0
  ∧ validate_inputs (-1) 2 [] [] [0; 0]
    = Return (false, "Allocation matrix must be n x m.").
Proof.
  assert (-1 < 0) as Hneg by lia. split; [exact Hneg|].
  exact (proj1 (validate_inputs_negative_size (-1) 2 [] [] [0; 0]) Hneg).
Defined.

(** ** The advisor: subscripts *)

Lemma row_sum_subscript allocation i :
  (subscript_ok allocation i → ∃ k, row_sum allocation i = Return k)
  ∧ (¬ subscript_ok allocation i → row_sum allocation i = Raise IndexError).
Proof.
  unfold subscript_ok, row_sum, getitem_int, len.
  destruct (Z.leb_spec 0 i) as [Hpos|Hneg].
  - destruct (getitem_cases allocation (Z.to_nat i))
      as [(row & Hrow & ->)|[Hge ->]]; cbn.
    + split; [eauto|]. apply lookup_lt_Some in Hrow. lia.
    + split; [lia|done].
  - destruct (Z.leb_spec 0 (i + Z.of_nat (length allocation))) as [Hin|Hout].
    + destruct (getitem_cases allocation
                  (Z.to_nat (i + Z.of_nat (length allocation))))
        as [(row & Hrow & ->)|[Hge ->]]; cbn.
      * split; [eauto|]. lia.
      * split; [lia|done].
    + split; [lia|done].
Qed.

Lemma min_scan_subscripts allocation rest : ∀ best best_key,
  Forall (subscript_ok allocation) rest →
  ∃ v, min_scan (row_sum allocation) best best_key rest = Return v
       ∧ v ∈ best :: rest.
Proof.
  induction rest as [|x rest IH]; intros best best_key Hok.
  - exists best. split; [done|by left].
  - apply Forall_cons in Hok as [Hx Hok]. cbn [min_scan].
    destruct (proj1 (row_sum_subscript allocation x) Hx) as [k ->]. cbn.
    destruct (k <? best_key).
    + destruct (IH x k Hok) as (v & -> & Hv). exists v. split; [done|].
      by right.
    + destruct (IH best best_key Hok) as (v & -> & Hv). exists v.
      split; [done|].
      apply elem_of_cons in Hv as [->|Hv]; [by left|by right; right].
Qed.

Lemma min_scan_bad_subscript allocation rest : ∀ best best_key,
  Exists (λ i, ¬ subscript_ok allocation i) rest →
  min_scan (row_sum allocation) best best_key rest = Raise IndexError.
Proof.
  induction rest as [|x rest IH]; intros best best_key Hbad.
  - by apply Exists_nil in Hbad.
  - cbn [min_scan].
    destruct (decide (subscript_ok allocation x)) as [Hx|Hx].
    + destruct (proj1 (row_sum_subscript allocation x) Hx) as [k ->]. cbn.
      apply Exists_cons in Hbad as [Hbad|Hbad]; [done|].
      destruct (k <? best_key); by apply IH.
    + by rewrite (proj2 (row_sum_subscript allocation x) Hx).
Qed.

(** X11.  What the subscripts of a non-empty list do to the advisor.  When
    every index is one that Python accepts for the allocation matrix, from
    the front or negative from the end, the advisor returns the advice
    that names a process of the list.  When some index is not, the advisor
    raises [IndexError]: the handler of [ValueError] does not catch it. *)
Theorem suggest_resolution_subscripts deadlocked allocation request :
  deadlocked ≠ [] →
  (Forall (subscript_ok allocation) deadlocked →
   ∃ v, v ∈ deadlocked
        ∧ suggest_resolution deadlocked allocation request
          = Return (advice_for v))
  ∧ (Exists (λ i, ¬ subscript_ok allocation i) deadlocked →
     suggest_resolution deadlocked allocation request = Raise IndexError).
Proof.
  intros Hne. destruct deadlocked as [|x rest]; [done|]. split.
  - intros [Hx Hok]%Forall_cons.
    destruct (proj1 (row_sum_subscript allocation x) Hx) as [k Hk].
    destruct (min_scan_subscripts allocation rest x k Hok) as (v & Hmin & Hv).
    exists v. split; [done|]. apply suggest_resolution_victim; [done|].
    cbn [py_min]. by rewrite Hk.
  - intros Hbad. unfold suggest_resolution. cbn [py_min].
    destruct (decide (subscript_ok allocation x)) as [Hx|Hx].
    + destruct (proj1 (row_sum_subscript allocation x) Hx) as [k ->]. cbn.
      apply Exists_cons in Hbad as [Hbad|Hbad]; [done|].
      by rewrite (min_scan_bad_subscript allocation rest x k Hbad).
    + by rewrite (proj2 (row_sum_subscript allocation x) Hx).
Qed.

Lemma suggest_resolution_subscripts_witness :
  [0; 7] ≠ []
  ∧ Exists (λ i, ¬ subscript_ok [[1; 0]; [0; 1]] i) [0; 7]
  ∧ suggest_resolution [0; 7] [[1; 0]; [0; 1]] [] = Raise IndexError.
Proof.
  assert (Exists (λ i, ¬ subscript_ok [[1; 0]; [0; 1]] i) [0; 7]) as Hbad.
  { apply Exists_cons_tl, Exists_cons_hd. unfold subscript_ok, len. cbn. lia. }
  split; [discriminate|]. split; [exact Hbad|].
  exact (proj2 (suggest_resolution_subscripts [0; 7] [[1; 0]; [0; 1]] []
                  ltac:(discriminate)) Hbad).
Defined.

(** ** Validation, detection and advice in sequence *)

(** X12.  On a state that the validator accepts, detection followed by the
    advisor on the reported list raises nothing.  Without deadlock the
    advice is "No action required."; with a deadlock it names a reported
    process, one that holds the least among the reported processes and
    has the least index among those. *)
Theorem detect_then_suggest n m allocation request available fuel :
  valid_state n m allocation request available →
  (Z.to_nat n < fuel)%nat →
  ∃ is_deadlock deadlocked message advice,
    detect_deadlock fuel n m allocation request available
    = Return (is_deadlock, deadlocked, message)
    ∧ suggest_resolution (Z.of_nat <$> deadlocked) allocation request
      = Return advice
    ∧ ((is_deadlock = false ∧ deadlocked = []
        ∧ advice = "No action required.")
       ∨ (is_deadlock = true
          ∧ ∃ v, v ∈ deadlocked ∧ advice = advice_for (Z.of_nat v)
                 ∧ least_index allocation (Z.of_nat <$> deadlocked)
                     (Z.of_nat v))).
Proof.
  intros Hvalid Hfuel.
  destruct (detect_deadlock_fixed_point n m allocation request available Hvalid)
    as (w & l & _ & _ & _ & _ & _ & _ & Hret).
  specialize (Hret fuel Hfuel). destruct l as [|i l].
  - exists false, [], msg_no_deadlock, msg_no_action.
    split; [done|]. split; [done|]. left. done.
  - destruct (suggest_resolution_after_detect n m allocation request available
                fuel (i :: l) (msg_deadlock (i :: l)) Hvalid Hfuel Hret)
      as (v & Hadvice & Hleast).
    exists true, (i :: l), (msg_deadlock (i :: l)), (advice_for v).
    split; [done|]. split; [done|]. right. split; [done|].
    destruct Hleast as (Hin & Hrest).
    pose proof Hin as Hin'.
    apply list_elem_of_fmap in Hin' as (k & -> & Hk).
    exists k. repeat split; try done. apply Hrest. apply Hrest.
Qed.

Lemma detect_then_suggest_witness :
  valid_state 2 2 [[1; 0]; [0; 1]] [[0; 1]; [1; 0]] [0; 0]
  ∧ (Z.to_nat 2 < 3)%nat
  ∧ ∃ is_deadlock deadlocked message advice,
      detect_deadlock 3 2 2 [[1; 0]; [0; 1]] [[0; 1]; [1; 0]] [0; 0]
      = Return (is_deadlock, deadlocked, message)
      ∧ suggest_resolution (Z.of_nat <$> deadlocked) [[1; 0]; [0; 1]]
          [[0; 1]; [1; 0]] = Return advice.
Proof.
  assert (Z.to_nat 2 < 3)%nat as Hfuel by (vm_compute; lia).
  split; [reflexivity|]. split; [exact Hfuel|].
  destruct (detect_then_suggest 2 2 [[1; 0]; [0; 1]] [[0; 1]; [1; 0]] [0; 0] 3
              eq_refl Hfuel) as (b & l & msg & advice & Hdet & Hadv & _).
  exists b, l, msg, advice. split; [exact Hdet|exact Hadv].
Defined.

(** ** The request handler *)

Lemma while_true_raise m allocation request order fuel : ∀ w f e,
  while_true fuel m allocation request order w f = Raise e → e = IndexError.
Proof.
  induction fuel as [|fuel IH]; intros w f e Hrun; [done|].
  cbn [while_true] in Hrun.
  destruct (for_each_cases m allocation request order (Vars w f false))
    as [Hpass|(s' & Hpass & _)]; rewrite Hpass in Hrun; cbn in Hrun.
  - congruence.
  - destruct (found s'); [by eapply IH|done].
Qed.

Lemma unfinished_raise f ids e : unfinished f ids = Raise e → e = IndexError.
Proof.
  induction ids as [|i ids IH]; [done|]. cbn [unfinished].
  destruct (getitem_cases f i) as [(b & _ & ->)|[_ ->]]; cbn; [|congruence].
  destruct (unfinished f ids) as [l|e'|]; cbn; [done| |done].
  intros [= <-]. by apply IH.
Qed.

(** When [detect_deadlock] returns, on whatever input and fuel, it returns
    the report of a list; what it raises is [IndexError]. *)
Lemma detect_deadlock_outcome fuel n m allocation request available :
  match detect_deadlock fuel n m allocation request available with
  | Return res => ∃ l, res = report l
  | Raise e => e = IndexError
  | OutOfFuel => True
  end.
Proof.
  unfold detect_deadlock, detect_deadlock_in.
  pose proof (while_true_raise m allocation request (range n) fuel available
                (replicate (Z.to_nat n) false)) as Hraise.
  destruct (while_true fuel m allocation request (range n) available
              (replicate (Z.to_nat n) false)) as [[w f]|e|]; cbn;
    [|by apply Hraise|done].
  pose proof (unfinished_raise f (range n)) as Hraise'.
  destruct (unfinished f (range n)) as [l|e|]; cbn; [by exists l|auto|done].
Qed.

Lemma suggest_resolution_not_ValueError deadlocked allocation request :
  suggest_resolution deadlocked allocation request ≠ Raise ValueError.
Proof.
  unfold suggest_resolution. destruct deadlocked as [|x rest]; [done|].
  destruct (py_min (row_sum allocation) (x :: rest)) as [v|e|]; cbn; [done| |done].
  by destruct e.
Qed.

Section handler.
Variable py_int : string → option Z.

Local Abbreviation field := (Web.field py_int).
Local Abbreviation fields := (Web.fields py_int).
Local Abbreviation matrix := (Web.matrix py_int).
Local Abbreviation read_form := (Web.read_form py_int).
Local Abbreviation index := (Web.index py_int).

Lemma web_fields_length form keys zs :
  fields form keys = Web.Done zs → length zs = length keys.
Proof.
  revert zs. induction keys as [|key keys IH]; intros zs Hrun.
  - by injection Hrun as <-.
  - cbn [Web.fields] in Hrun.
    destruct (field form key) as [z| |]; cbn in Hrun; [|done..].
    destruct (fields form keys) as [zs'| |]; cbn in Hrun; [|done..].
    injection Hrun as <-. cbn. by rewrite (IH zs').
Qed.

Lemma web_matrix_shape form prefix ids m mat :
  matrix form prefix ids m = Web.Done mat →
  length mat = length ids ∧ Forall (λ r, length r = Z.to_nat m) mat.
Proof.
  revert mat. induction ids as [|i ids IH]; intros mat Hrun.
  - by injection Hrun as <-.
  - cbn [Web.matrix] in Hrun.
    destruct (fields form (Web.cell_keys prefix i m)) as [r| |] eqn:Hr;
      cbn in Hrun; [|done..].
    destruct (matrix form prefix ids m) as [rs| |]; cbn in Hrun; [|done..].
    injection Hrun as <-. destruct (IH rs eq_refl) as [Hlen Hall].
    split; [cbn; by rewrite Hlen|]. constructor; [|done].
    rewrite (web_fields_length _ _ _ Hr). unfold Web.cell_keys.
    by rewrite length_fmap, length_range.
Qed.

Lemma web_read_form_shape form n m allocation request_matrix available :
  read_form form = Web.Done (n, m, allocation, request_matrix, available) →
  length allocation = Z.to_nat n
  ∧ Forall (λ r, length r = Z.to_nat m) allocation
  ∧ length request_matrix = Z.to_nat n
  ∧ Forall (λ r, length r = Z.to_nat m) request_matrix
  ∧ length available = Z.to_nat m.
Proof.
  unfold Web.read_form. intros Hrun.
  destruct (field form "n") as [n'| |]; cbn in Hrun; [|done..].
  destruct (field form "m") as [m'| |]; cbn in Hrun; [|done..].
  destruct (matrix form "alloc" (range n') m') as [a| |] eqn:Ha;
    cbn in Hrun; [|done..].
  destruct (matrix form "req" (range n') m') as [r| |] eqn:Hr;
    cbn in Hrun; [|done..].
  destruct (fields form (Web.avail_keys m')) as [av| |] eqn:Hav;
    cbn in Hrun; [|done..].
  injection Hrun as <- <- <- <- <-.
  destruct (web_matrix_shape _ _ _ _ _ Ha) as [Hla Harows].
  destruct (web_matrix_shape _ _ _ _ _ Hr) as [Hlr Hrrows].
  rewrite length_range in Hla, Hlr.
  repeat (split; [done|]).
  rewrite (web_fields_length _ _ _ Hav). unfold Web.avail_keys.
  by rewrite length_fmap, length_range.
Qed.

Lemma well_shaped_same n m (mat mat' : list (list Z)) :
  length mat = Z.to_nat n → Forall (λ r, length r = Z.to_nat m) mat →
  length mat' = Z.to_nat n → Forall (λ r, length r = Z.to_nat m) mat' →
  well_shaped n m mat → well_shaped n m mat'.
Proof.
  intros Hl Hrows Hl' Hrows' [Hn Hm]. unfold len in Hn. split.
  - unfold len. lia.
  - destruct mat as [|row mat].
    + destruct mat'; [constructor|]. cbn in Hl, Hl'. lia.
    + apply Forall_cons in Hm as [Hm _]. apply Forall_cons in Hrows as [Hr _].
      unfold len in Hm. eapply Forall_impl; [exact Hrows'|].
      cbn. intros r Hlen. unfold len. lia.
Qed.

Lemma web_read_form_well_shaped
    form n m allocation request_matrix available :
  read_form form = Web.Done (n, m, allocation, request_matrix, available) →
  (well_shaped n m allocation → well_shaped n m request_matrix)
  ∧ (0 ≤ n → 0 ≤ m →
     well_shaped n m allocation ∧ well_shaped n m request_matrix
     ∧ len available = m).
Proof.
  intros Hread.
  destruct (web_read_form_shape _ _ _ _ _ _ Hread)
    as (Hla & Harows & Hlr & Hrrows & Hlav).
  split; [by apply well_shaped_same|].
  intros Hn Hm. unfold well_shaped, len.
  split; [|split]; [split; [lia|]..|lia];
    (eapply Forall_impl; [done|]); cbn; intros r Hr; lia.
Qed.

(** What [process] has done when it has rendered a page. *)
Lemma web_process_Done fuel now n m allocation request_matrix available pg log :
  Web.process fuel now n m allocation request_matrix available
  = Web.Done (pg, log) →
  (∃ reason,
     validate_inputs n m allocation request_matrix available
     = Return (false, reason)
     ∧ pg = Web.Page (Some ("Input error: " +:+ reason)) None ∧ log = [])
  ∨ (valid_state n m allocation request_matrix available
     ∧ ∃ deadlocked advice,
         detect_deadlock fuel n m allocation request_matrix available
         = Return (report deadlocked)
         ∧ suggest_resolution (Z.of_nat <$> (report deadlocked).1.2)
             allocation request_matrix = Return advice
         ∧ pg = Web.Page (Some (report deadlocked).2) (Some advice)
         ∧ log = [Web.save_to_db n m allocation request_matrix available
                    (report deadlocked).2 advice now]).
Proof.
  unfold Web.process. intros Hrun.
  destruct (validate_inputs_total n m allocation request_matrix available)
    as ([ok reason] & Hval & Hverdict).
  rewrite Hval in Hrun. cbn in Hrun. destruct ok; cbn in Hrun.
  - right.
    assert (reason = "") as -> by (by inversion Hverdict).
    split; [done|].
    pose proof (detect_deadlock_outcome fuel n m allocation request_matrix
                  available) as Hdet.
    destruct (detect_deadlock fuel n m allocation request_matrix available)
      as [res|e|]; cbn in Hrun; [|done..].
    destruct Hdet as [l ->]. destruct (report l) as [[b l'] msg] eqn:Hrep.
    cbn in Hrun |- *.
    destruct (suggest_resolution (Z.of_nat <$> l') allocation request_matrix)
      as [advice|e|] eqn:Hsug; cbn in Hrun; [|done..].
    injection Hrun as <- <-. exists l, advice. rewrite Hrep. done.
  - left. injection Hrun as <- <-. by exists reason.
Qed.

Lemma web_process_not_ValueError
    fuel now n m allocation request_matrix available :
  Web.process fuel now n m allocation request_matrix available
  ≠ Web.Raised (Web.Python ValueError).
Proof.
  unfold Web.process.
  destruct (validate_inputs_total n m allocation request_matrix available)
    as ([ok reason] & -> & _).
  cbn. destruct ok; cbn; [|done].
  pose proof (detect_deadlock_outcome fuel n m allocation request_matrix
                available) as Hdet.
  destruct (detect_deadlock fuel n m allocation request_matrix available)
    as [[[b l] msg]|e|]; cbn; [|by subst|done].
  pose proof (suggest_resolution_not_ValueError (Z.of_nat <$> l) allocation
                request_matrix) as Hsug.
  destruct (suggest_resolution (Z.of_nat <$> l) allocation request_matrix)
    as [advice|e|]; cbn; [done| |done].
  congruence.
Qed.

(** The page of a valid state. *)
Lemma web_process_valid fuel now n m allocation request_matrix available :
  valid_state n m allocation request_matrix available →
  (Z.to_nat n < fuel)%nat →
  ∃ is_deadlock deadlocked message advice,
    detect_deadlock fuel n m allocation request_matrix available
    = Return (is_deadlock, deadlocked, message)
    ∧ suggest_resolution (Z.of_nat <$> deadlocked) allocation request_matrix
      = Return advice
    ∧ Web.process fuel now n m allocation request_matrix available
      = Web.Done (Web.Page (Some message) (Some advice),
                  [Web.save_to_db n m allocation request_matrix available
                     message advice now]).
Proof.
  intros Hvalid Hfuel.
  destruct (detect_deadlock_fixed_point n m allocation request_matrix
              available Hvalid) as (w & l & _ & _ & _ & _ & _ & _ & Hret).
  specialize (Hret fuel Hfuel).
  assert (∃ advice,
            suggest_resolution (Z.of_nat <$> (report l).1.2) allocation
              request_matrix = Return advice) as [advice Hadvice].
  { destruct l as [|i l]; [by eexists|].
    destruct (suggest_resolution_after_detect n m allocation request_matrix
                available fuel (i :: l) (msg_deadlock (i :: l)) Hvalid
                Hfuel Hret) as (v & Hv & _).
    by eexists. }
  destruct (report l) as [[b l'] msg] eqn:Hrep. cbn in Hadvice.
  exists b, l', msg, advice. split; [done|]. split; [done|].
  unfold Web.process. unfold valid_state in Hvalid. rewrite Hvalid. cbn.
  rewrite Hret. cbn. by rewrite Hadvice.
Qed.
End handler.

Section handler_pages.
Variable py_int : string → option Z.

Local Abbreviation read_form := (Web.read_form py_int).
Local Abbreviation index := (Web.index py_int).

(** Once the form is read, the page is that of [process]: it raises no
    [ValueError] for the handler to catch. *)
Lemma web_index_read fuel now form n m allocation request_matrix available :
  read_form form = Web.Done (n, m, allocation, request_matrix, available) →
  index fuel now "POST" form
  = Web.process fuel now n m allocation request_matrix available.
Proof.
  intros Hread. unfold Web.index. cbn [String.eqb Ascii.eqb Bool.eqb].
  cbn match. rewrite Hread. cbn.
  pose proof (web_process_not_ValueError fuel now n m allocation
                request_matrix available) as Hno.
  destruct (Web.process fuel now n m allocation request_matrix available)
    as [res|[[]|]|]; done.
Qed.

(** X13.  The matrices that the handler reads from a form have the sizes
    that it has read: [n] rows (none when [n] is negative) of [m] entries
    (none when [m] is negative), and as many available units.  With
    non-negative [n] and [m] the three shape checks of the validator
    therefore pass. *)
Theorem web_form_shapes form n m allocation request_matrix available :
  read_form form = Web.Done (n, m, allocation, request_matrix, available) →
  length allocation = Z.to_nat n
  ∧ Forall (λ r, length r = Z.to_nat m) allocation
  ∧ length request_matrix = Z.to_nat n
  ∧ Forall (λ r, length r = Z.to_nat m) request_matrix
  ∧ length available = Z.to_nat m
  ∧ (0 ≤ n → 0 ≤ m →
     well_shaped n m allocation ∧ well_shaped n m request_matrix
     ∧ len available = m).
Proof.
  intros Hread.
  destruct (web_read_form_shape py_int _ _ _ _ _ _ Hread)
    as (? & ? & ? & ? & ?).
  repeat (split; [done|]).
  by apply (web_read_form_well_shaped py_int form).
Qed.

(** X14.  A form that reads as a valid state gets the page of its
    detection: the message of [detect_deadlock], the advice of
    [suggest_resolution] on the reported list, and one inserted row that
    holds the sizes, the three inputs in JSON, that message, that advice
    and the time.  No exception leaves the handler. *)
Theorem web_index_valid
    fuel now form n m allocation request_matrix available :
  read_form form = Web.Done (n, m, allocation, request_matrix, available) →
  valid_state n m allocation request_matrix available →
  (Z.to_nat n < fuel)%nat →
  ∃ is_deadlock deadlocked message advice,
    detect_deadlock fuel n m allocation request_matrix available
    = Return (is_deadlock, deadlocked, message)
    ∧ suggest_resolution (Z.of_nat <$> deadlocked) allocation request_matrix
      = Return advice
    ∧ index fuel now "POST" form
      = Web.Done
          (Web.Page (Some message) (Some advice),
           [Web.Row n m (Web.json_matrix allocation)
              (Web.json_matrix request_matrix) (Web.json_vector available)
              message advice now]).
Proof.
  intros Hread Hvalid Hfuel.
  destruct (web_process_valid fuel now n m allocation request_matrix available
              Hvalid Hfuel) as (b & l & msg & advice & Hdet & Hadv & Hrun).
  exists b, l, msg, advice. split; [done|]. split; [done|].
  by rewrite (web_index_read fuel now form _ _ _ _ _ Hread).
Qed.

(** X15.  A form that reads as a state that the validator rejects gets the
    page "Input error: " with the validator's reason, no advice, and
    nothing is inserted.  The reason is never that of the request shape,
    and with non-negative [n] and [m] it is one of the two sign reasons:
    the handler builds both matrices with the sizes it has read. *)
Theorem web_index_rejected
    fuel now form n m allocation request_matrix available reason :
  read_form form = Web.Done (n, m, allocation, request_matrix, available) →
  validate_inputs n m allocation request_matrix available
  = Return (false, reason) →
  index fuel now "POST" form
  = Web.Done (Web.Page (Some ("Input error: " +:+ reason)) None, [])
  ∧ reason ≠ "Request matrix must be n x m."
  ∧ (0 ≤ n → 0 ≤ m →
     reason ∈ ["Values must be non-negative.";
               "Available values must be non-negative."]).
Proof.
  intros Hread Hval.
  destruct (web_read_form_well_shaped py_int _ _ _ _ _ _ Hread)
    as [Hsame Hshapes].
  destruct (validate_inputs_total n m allocation request_matrix available)
    as (res & Hres & Hverdict).
  rewrite Hval in Hres. injection Hres as <-.
  split; [|split].
  - rewrite (web_index_read fuel now form _ _ _ _ _ Hread).
    unfold Web.process. by rewrite Hval.
  - inversion Hverdict as [|Ha Hr| | | |]; try (vm_compute; discriminate).
    exfalso. by apply Hr, Hsame.
  - intros Hn Hm. destruct (Hshapes Hn Hm) as (Ha & Hr & Hav).
    inversion Hverdict; try done; rewrite !elem_of_cons; auto.
Qed.


(** X17.  Only validated states are stored.  When the handler has inserted
    a row, the form read as a state that the validator accepts, the row is
    the only one, and it holds that state with the message of its
    detection and the advice shown on the page. *)
Theorem web_index_stored fuel now method form pg log :
  index fuel now method form = Web.Done (pg, log) →
  log ≠ [] →
  ∃ n m allocation request_matrix available deadlocked advice,
    read_form form = Web.Done (n, m, allocation, request_matrix, available)
    ∧ valid_state n m allocation request_matrix available
    ∧ detect_deadlock fuel n m allocation request_matrix available
      = Return (report deadlocked)
    ∧ pg = Web.Page (Some (report deadlocked).2) (Some advice)
    ∧ log = [Web.Row n m (Web.json_matrix allocation)
               (Web.json_matrix request_matrix) (Web.json_vector available)
               (report deadlocked).2 advice now].
Proof.
  intros Hrun Hlog.
  destruct (String.eqb_spec method "POST") as [->|Hne].
  2:{ unfold Web.index in Hrun. apply String.eqb_neq in Hne.
      rewrite Hne in Hrun. by injection Hrun as <- <-. }
  destruct (read_form form) as [[[[[n m] a] r] av]|e|] eqn:Hread.
  - rewrite (web_index_read fuel now form _ _ _ _ _ Hread) in Hrun.
    destruct (web_process_Done _ _ _ _ _ _ _ _ _ Hrun)
      as [(reason & _ & _ & ->)|(Hvalid & l & advice & Hdet & _ & -> & ->)];
      [done|].
    exists n, m, a, r, av, l, advice. done.
  - unfold Web.index in Hrun. cbn [String.eqb Ascii.eqb Bool.eqb] in Hrun.
    cbn match in Hrun. rewrite Hread in Hrun. cbn in Hrun.
    destruct e as [[]|]; try done. by injection Hrun as <- <-.
  - unfold Web.index in Hrun. cbn [String.eqb Ascii.eqb Bool.eqb] in Hrun.
    cbn match in Hrun. rewrite Hread in Hrun. done.
Qed.
End handler_pages.

Lemma web_form_shapes_witness :
  Web.read_form Web.sample_int Web.sample_form
  = Web.Done (1, 1, [[1]], [[0]], [0])
  ∧ well_shaped 1 1 [[1]] ∧ well_shaped 1 1 [[0]] ∧ len [0] = 1.
Proof.
  assert (Web.read_form Web.sample_int Web.sample_form
          = Web.Done (1, 1, [[1]], [[0]], [0])) as Hread
    by (vm_compute; reflexivity).
  split; [exact Hread|].
  apply (web_form_shapes Web.sample_int Web.sample_form 1 1 [[1]] [[0]] [0]
           Hread); lia.
Defined.

Lemma web_index_valid_witness :
  Web.read_form Web.sample_int Web.sample_form
  = Web.Done (1, 1, [[1]], [[0]], [0])
  ∧ valid_state 1 1 [[1]] [[0]] [0]
  ∧ (Z.to_nat 1 < 2)%nat
  ∧ ∃ message advice,
      Web.index Web.sample_int 2 "2026-01-01 00:00:00" "POST" Web.sample_form
      = Web.Done
          (Web.Page (Some message) (Some advice),
           [Web.Row 1 1 (Web.json_matrix [[1]]) (Web.json_matrix [[0]])
              (Web.json_vector [0]) message advice "2026-01-01 00:00:00"]).
Proof.
  assert (Web.read_form Web.sample_int Web.sample_form
          = Web.Done (1, 1, [[1]], [[0]], [0])) as Hread
    by (vm_compute; reflexivity).
  assert (Z.to_nat 1 < 2)%nat as Hfuel by (vm_compute; lia).
  split; [exact Hread|]. split; [reflexivity|]. split; [exact Hfuel|].
  destruct (web_index_valid Web.sample_int 2 "2026-01-01 00:00:00"
              Web.sample_form 1 1 [[1]] [[0]] [0] Hread eq_refl Hfuel)
    as (b & l & msg & advice & _ & _ & Hrun).
  exists msg, advice. exact Hrun.
Defined.

Lemma web_index_rejected_witness :
  Web.read_form Web.sample_int (<["avail_0" := "-1"]> Web.sample_form)
  = Web.Done (1, 1, [[1]], [[0]], [-1])
  ∧ validate_inputs 1 1 [[1]] [[0]] [-1]
    = Return (false, "Available values must be non-negative.")
  ∧ Web.index Web.sample_int 2 "now" "POST"
      (<["avail_0" := "-1"]> Web.sample_form)
    = Web.Done
        (Web.Page
           (Some ("Input error: " +:+ "Available values must be non-negative."))
           None, []).
Proof.
  assert (Web.read_form Web.sample_int (<["avail_0" := "-1"]> Web.sample_form)
          = Web.Done (1, 1, [[1]], [[0]], [-1])) as Hread
    by (vm_compute; reflexivity).
  split; [exact Hread|]. split; [reflexivity|].
  exact (proj1 (web_index_rejected Web.sample_int 2 "now"
                  (<["avail_0" := "-1"]> Web.sample_form) 1 1 [[1]] [[0]] [-1]
                  "Available values must be non-negative." Hread eq_refl)).
Defined.


Lemma web_index_stored_witness :
  ∃ pg log,
    Web.index Web.sample_int 2 "now" "POST" Web.sample_form = Web.Done (pg, log)
    ∧ log ≠ []
    ∧ ∃ n m allocation request_matrix available,
        Web.read_form Web.sample_int Web.sample_form
        = Web.Done (n, m, allocation, request_matrix, available)
        ∧ valid_state n m allocation request_matrix available.
Proof.
  eexists _, _. split; [vm_compute; reflexivity|]. split; [discriminate|].
  destruct (web_index_stored Web.sample_int 2 "now" "POST" Web.sample_form
              _ _ ltac:(vm_compute; reflexivity) ltac:(discriminate))
    as (n & m & a & r & av & l & advice & Hread & Hvalid & _).
  exists n, m, a, r, av. split; [exact Hread|exact Hvalid].
Defined.

(** ** The reported list *)

Lemma unfinished_sublist f ids : ∀ l,
  unfinished f ids = Return l → l `sublist_of` ids.
Proof.
  induction ids as [|i ids IH]; intros l Hrun.
  - by injection Hrun as <-.
  - cbn [unfinished] in Hrun.
    destruct (getitem f i) as [b| |]; cbn in Hrun; [|done..].
    destruct (unfinished f ids) as [rest| |]; cbn in Hrun; [|done..].
    injection Hrun as <-. specialize (IH rest eq_refl).
    destruct b; [by apply sublist_cons|by apply sublist_skip].
Qed.

(** X18.  Whenever [detect_deadlock] returns, on a valid state or not, the
    reported list holds indices below [n] in strictly ascending order,
    hence without repetition, and [isDeadlock] tells whether it is
    non-empty. *)
Theorem detect_deadlock_list_ascending
    fuel n m allocation request available is_deadlock deadlocked message :
  detect_deadlock fuel n m allocation request available
  = Return (is_deadlock, deadlocked, message) →
  StronglySorted lt deadlocked
  ∧ NoDup deadlocked
  ∧ (∀ i, i ∈ deadlocked → Z.of_nat i < n)
  ∧ (is_deadlock = true ↔ deadlocked ≠ []).
Proof.
  unfold detect_deadlock, detect_deadlock_in. intros Hrun.
  destruct (while_true fuel m allocation request (range n) available
              (replicate (Z.to_nat n) false)) as [[w f]|e|];
    cbn in Hrun; [|done..].
  destruct (unfinished f (range n)) as [l|e|] eqn:Hl; cbn in Hrun; [|done..].
  apply unfinished_sublist in Hl.
  assert (deadlocked = l ∧ (is_deadlock = true ↔ l ≠ [])) as [-> Hiff].
  { destruct l; cbn in Hrun; injection Hrun as <- <- <-; done. }
  split; [|split; [|split; [|done]]].
  - eapply StronglySorted_sublist; [done|]. apply StronglySorted_seq.
  - eapply sublist_NoDup; [apply NoDup_seq|done].
  - intros i Hi. apply elem_of_range. by eapply sublist_subseteq.
Qed.

Lemma detect_deadlock_list_ascending_witness :
  detect_deadlock 4 3 1 [[1]; [1]; [1]] [[1]; [1]; [1]] [0]
  = Return (true, [0; 1; 2]%nat, "Deadlock detected in processes: [0, 1, 2].")
  ∧ StronglySorted lt [0; 1; 2]%nat.
Proof.
  split; [reflexivity|].
  exact (proj1 (detect_deadlock_list_ascending 4 3 1 [[1]; [1]; [1]]
                  [[1]; [1]; [1]] [0] true [0; 1; 2]%nat
                  "Deadlock detected in processes: [0, 1, 2]." eq_refl)).
Defined.
